(** * The Marketing Kitchen news fetcher: scoring, deduplication, partitioning

    A shallow embedding of [scripts/fetch_news.py]: the relevance scorer
    ([compute_relevance_score]), the freshness filter ([is_recent]), the
    two classifiers, the two-pass deduplicator ([deduplicate]), the output
    partitioner ([build_output_files]), the text steps of
    [normalize_entry], and the part of [main] that runs between fetching
    and writing.

    Conventions of the embedding.
    - An article is a record; the dictionary key ["vendors"], which [main]
      adds and later pops, is an [option] field ([None] = key absent).
    - A Python [str] is held as its UTF-8 encoding, a [string] of bytes.
      Equality, containment ([in]), ordering ([<]) and [replace] of an
      ASCII pattern give the same answers on encodings as on code points;
      [len] and slicing count code points and are modelled as such
      ([cp_length], [cp_take]).
    - [str.lower] and the regular expression [\w+] depend on Python's
      Unicode tables, which are no part of the repository: they are the two
      operations of the class [Unicode], and every general statement holds
      whatever they are.  [ascii_text] implements them for ASCII text, on
      which it agrees with Python; the examples that use it are ASCII.
    - A call of [dateutil.parser.parse] has one of three outcomes
      ([parsed]) and reads the clock.
    - An exception that leaves a function is the result [None].
    - Python sets of tokens are [gset string]; the dictionary [seen_ids] is a
      [gmap string Article]; lists updated by index use stdpp's lookup and
      insert, an index out of range being an error as in Python.
    - Instants and durations are integers counted in microseconds, the
      resolution of [datetime] and [timedelta]. *)

From Stdlib Require Import ZArith Lia Ascii String Sorting.Sorted Permutation.
From stdpp Require Import gmap strings list fin_maps.

Open Scope string_scope.
Open Scope list_scope.
Open Scope nat_scope.

(** ** Data model *)

Record Article := mkArticle {
  a_id : string;
  a_title : string;
  a_url : string;
  a_source : string;
  a_source_category : string;
  a_published : string;
  a_summary : string;
  a_image_url : option string;
  a_tags : list string;
  a_industries : list string;
  a_vendors : option (list string);
  a_relevance_score : Z
}.

(** [config["relevance_keywords"]]: every tier may be missing. *)
Record RelevanceKeywords := mkRelevance {
  high_weight : option (list string);
  medium_weight : option (list string);
  low_weight : option (list string)
}.

Record FeedInfo := mkFeed {
  f_name : string;
  f_url : string;
  f_category : string
}.

(** The JSON configuration.  A JSON object read by [json.load] is a [dict]
    that iterates in insertion order, hence association lists. *)
Record Config := mkConfig {
  relevance_keywords : option RelevanceKeywords;
  industry_keywords : option (list (string * list string));
  vendor_keywords : option (list (string * list string));
  feeds : list (string * list FeedInfo)
}.

(** [d.get(key, default)] *)
Definition get {A} (o : option A) (default : A) : A :=
  match o with Some v => v | None => default end.

Definition MAX_ARTICLES_PER_OUTPUT : nat := 100.

(** ** Text *)

(** [kw in s]: plain substring containment. *)
Fixpoint str_in (kw s : string) : bool :=
  String.prefix kw s ||
  match s with
  | EmptyString => false
  | String _ s' => str_in kw s'
  end.

(** A byte [10xxxxxx], which continues a code point begun earlier. *)
Definition is_continuation (c : ascii) : bool :=
  let n := nat_of_ascii c in (128 <=? n)%nat && (n <? 192)%nat.

(** [len(s)]: the number of code points, one for each byte that is not a
    continuation byte. *)
Fixpoint cp_length (s : string) : nat :=
  match s with
  | EmptyString => 0
  | String c s' => if is_continuation c then cp_length s' else S (cp_length s')
  end.

(** [s[:n]]: the first [n] code points. *)
Fixpoint cp_take (n : nat) (s : string) : string :=
  match s with
  | EmptyString => EmptyString
  | String c s' =>
      if is_continuation c then String c (cp_take n s')
      else match n with
           | O => EmptyString
           | S n' => String c (cp_take n' s')
           end
  end.

(** [" " in s] *)
Fixpoint has_space (s : string) : bool :=
  match s with
  | EmptyString => false
  | String c s' => if decide (c = " "%char) then true else has_space s'
  end.

(** [s.rsplit(" ", 1)[0]]: what stands before the last space, or all of [s]
    when it has no space. *)
Fixpoint rsplit_head (s : string) : string :=
  match s with
  | EmptyString => EmptyString
  | String c s' =>
      if has_space s' then String c (rsplit_head s')
      else if decide (c = " "%char) then EmptyString
      else s
  end.

(** [s.replace(old, new)] for a non-empty [old]: occurrences are replaced
    left to right without overlap; [skip] counts the characters of the
    occurrence just replaced that are still to be passed over. *)
Fixpoint replace_from (old new : string) (skip : nat) (s : string) : string :=
  match s with
  | EmptyString => EmptyString
  | String c s' =>
      match skip with
      | S k => replace_from old new k s'
      | O =>
          if String.prefix old s
          then new +:+ replace_from old new (String.length old - 1) s'
          else String c (replace_from old new 0 s')
      end
  end.

Definition replace (old new s : string) : string := replace_from old new 0 s.

(** The operations on text that rest on Python's Unicode tables:
    [s.lower()] and [re.findall(r"\w+", s)]. *)
Class Unicode := {
  lower : string -> string;
  findall_words : string -> list string
}.

(** ** Timestamps *)

(** What [dateutil.parser.parse] returns: a wall-clock reading and, when the
    text carried one, its offset from UTC (both in microseconds). *)
Record datetime := mkDatetime {
  dt_wall : Z;
  dt_utcoffset : option Z
}.

(** The outcome of one call of [dateutil.parser.parse]: a datetime; a
    [ValueError] (dateutil's [ParserError] is one) or a [TypeError], the two
    exceptions the callers catch; or an exception of another type, such as
    the [OverflowError] dateutil raises on a number too large for a C
    integer. *)
Inductive parsed :=
  | Parsed (d : datetime)
  | Unparseable
  | Escapes.

(** The instant a [datetime] denotes, after
    [if pub_date.tzinfo is None: pub_date = pub_date.replace(tzinfo=utc)]. *)
Definition instant_of (d : datetime) : Z :=
  (dt_wall d - get (dt_utcoffset d) 0)%Z.

Definition HOUR : Z := 3600000000%Z.

Definition DAY : Z := (24 * HOUR)%Z.

Definition MAX_ARTICLE_AGE_DAYS : Z := 7%Z.

Section Code.

Context {U : Unicode}.

(** ** Relevance scorer *)

Section Scorer.

(** [dateutil.parser.parse], an external library.  It fills the fields a
    text leaves out from the current date, so its outcome depends on when it
    is called: [parse_date now s] is the outcome of parsing [s] in the run of
    the calling function whose [datetime.now(timezone.utc)] reads [now]. *)
Variable parse_date : Z -> string -> parsed.

(** One of the three keyword loops of [compute_relevance_score], with the
    loop's two literals as [title_w] and [summary_w]; [score] is the running
    total the loop adds to. *)
Definition keyword_loop (title_w summary_w : Z) (title_lower summary_lower : string)
    (kws : list string) (score : Z) : Z :=
  fold_left
    (fun score kw =>
       let kw_lower := lower kw in
       if str_in kw_lower title_lower then (score + title_w)%Z
       else if str_in kw_lower summary_lower then (score + summary_w)%Z
       else score)
    kws score.

(** The [try] block of [compute_relevance_score]; [None] is an exception of
    the parser that [except (ValueError, TypeError)] does not catch.
    [hours_ago] is the float [(now - pub_date).total_seconds() / 3600]; the
    difference is a whole number of microseconds and 6, 12 and 24 hours are
    exactly representable, so [hours_ago < 6] holds exactly when the
    difference is below [6 * HOUR] microseconds, and likewise for 12 and
    24. *)
Definition recency_boost (now : Z) (published : string) (score : Z) : option Z :=
  match parse_date now published with
  | Parsed pub_date =>
      let elapsed := (now - instant_of pub_date)%Z in
      if (elapsed <? 6 * HOUR)%Z then Some (score + 15)%Z
      else if (elapsed <? 12 * HOUR)%Z then Some (score + 10)%Z
      else if (elapsed <? 24 * HOUR)%Z then Some (score + 5)%Z
      else Some score
  | Unparseable => Some score
  | Escapes => None
  end.

(** [compute_relevance_score(article, config)], with the clock reading as
    the argument [now]. *)
Definition compute_relevance_score (now : Z) (article : Article) (config : Config)
    : option Z :=
  let score := 0%Z in
  let title_lower := lower (a_title article) in
  let summary_lower := lower (a_summary article) in
  let relevance := get (relevance_keywords config) (mkRelevance None None None) in
  let score := keyword_loop 45 15 title_lower summary_lower
                 (get (high_weight relevance) []) score in
  let score := keyword_loop 24 8 title_lower summary_lower
                 (get (medium_weight relevance) []) score in
  let score := keyword_loop 9 3 title_lower summary_lower
                 (get (low_weight relevance) []) score in
  score ← recency_boost now (a_published article) score;
  let score := Z.max score 10 in
  Some (Z.min score 100).

(** [is_recent(published_str)], with the clock reading as [now].  The
    cutoff is [now - timedelta(days=MAX_ARTICLE_AGE_DAYS)] and datetimes
    compare exactly; a [ValueError] or [TypeError] of the parser returns
    [True], any other exception leaves the function. *)
Definition is_recent (now : Z) (published_str : string) : option bool :=
  match parse_date now published_str with
  | Parsed pub_date =>
      let cutoff := (now - MAX_ARTICLE_AGE_DAYS * DAY)%Z in
      Some (bool_decide (instant_of pub_date > cutoff)%Z)
  | Unparseable => Some true
  | Escapes => None
  end.

End Scorer.

(** ** Classifier *)

(** The loop shared by [classify_industries] and [classify_vendors]: a label
    is appended at its first matching keyword ([existsb] stops there, as the
    [break] does). *)
Definition classify (text : string) (keyword_map : list (string * list string))
    : list string :=
  fold_left
    (fun matched '(label, keywords) =>
       if existsb (fun kw => str_in (lower kw) text) keywords
       then matched ++ [label] else matched)
    keyword_map [].

Definition classify_industries (article : Article) (config : Config) : list string :=
  let text := lower (a_title article +:+ " " +:+ a_summary article) in
  classify text (get (industry_keywords config) []).

Definition classify_vendors (article : Article) (config : Config) : list string :=
  let text := lower (a_title article +:+ " " +:+ a_summary article) in
  classify text (get (vendor_keywords config) []).

(** ** Deduplicator *)

(** *** First pass: exact identity *)

(** One iteration of the first loop of [deduplicate] on the pair
    [(seen_ids, unique)]. *)
Definition exact_step (st : gmap string Article * list Article) (article : Article)
    : gmap string Article * list Article :=
  let '(seen_ids, unique) := st in
  let aid := a_id article in
  match seen_ids !! aid with
  | Some seen =>
      if decide (a_relevance_score article > a_relevance_score seen)%Z then
        let unique := filter (fun a => a_id a ≠ aid) unique in
        let unique := unique ++ [article] in
        (<[aid := article]> seen_ids, unique)
      else (seen_ids, unique)
  | None => (<[aid := article]> seen_ids, unique ++ [article])
  end.

Definition exact_loop (articles : list Article) : gmap string Article * list Article :=
  fold_left exact_step articles (∅, []).

(** The list [unique] when the first loop ends. *)
Definition exact_pass (articles : list Article) : list Article :=
  (exact_loop articles).2.

(** *** Second pass: fuzzy title match *)

(** [set(re.findall(r"\w+", article["title"].lower()))] *)
Definition title_words (article : Article) : gset string :=
  list_to_set (findall_words (lower (a_title article))).

(** [similarity > 0.85], where
    [similarity = len(intersection) / len(union) if union else 0].
    The quotient of the two lengths is the double nearest to the exact
    ratio and [0.85] is the double nearest to 17/20: a ratio equal to 17/20
    gives the same double (not greater), and any other ratio of token counts
    is further from 17/20 than doubles are spaced, so the test is the
    integer comparison [17 * len(union) < 20 * len(intersection)]. *)
Definition similar (words existing_words : gset string) : bool :=
  let intersection := words ∩ existing_words in
  let union := words ∪ existing_words in
  if decide (size union = 0) then false
  else bool_decide (17 * size union < 20 * size intersection).

(** The inner loop [for i, existing_words in enumerate(title_words_list)],
    entered at index [i]: the index at which it breaks, if it does. *)
Fixpoint find_dup (words : gset string) (title_words_list : list (gset string))
    (i : nat) : option nat :=
  match title_words_list with
  | [] => None
  | existing_words :: rest =>
      if decide (size existing_words < 3) then find_dup words rest (S i)
      else if similar words existing_words then Some i
      else find_dup words rest (S i)
  end.

(** One iteration of the second loop on [(final, title_words_list)].
    [None] is the [IndexError] of [final[i]]. *)
Definition fuzzy_step (st : list Article * list (gset string)) (article : Article)
    : option (list Article * list (gset string)) :=
  let '(final, title_words_list) := st in
  let words := title_words article in
  if decide (size words < 3) then
    Some (final ++ [article], title_words_list ++ [words])
  else
    match find_dup words title_words_list 0 with
    | Some i =>
        match final !! i with
        | Some existing =>
            if decide (a_relevance_score article > a_relevance_score existing)%Z
            then Some (<[i := article]> final, <[i := words]> title_words_list)
            else Some (final, title_words_list)
        | None => None
        end
    | None => Some (final ++ [article], title_words_list ++ [words])
    end.

Fixpoint fuzzy_loop (st : list Article * list (gset string)) (unique : list Article)
    : option (list Article * list (gset string)) :=
  match unique with
  | [] => Some st
  | article :: rest =>
      match fuzzy_step st article with
      | Some st' => fuzzy_loop st' rest
      | None => None
      end
  end.

(** The list [final] when the second loop ends. *)
Definition fuzzy_pass (unique : list Article) : option (list Article) :=
  fst <$> fuzzy_loop ([], []) unique.

(** [deduplicate(articles)] *)
Definition deduplicate (articles : list Article) : option (list Article) :=
  fuzzy_pass (exact_pass articles).

(** The slot an incoming article is declared a duplicate of ([is_dup = True]
    with the inner loop broken at that index), if any. *)
Definition dup_slot (st : list Article * list (gset string)) (article : Article)
    : option nat :=
  let words := title_words article in
  if decide (size words < 3) then None else find_dup words st.2 0.

(** ** Output partitioner *)

(** The sort key [(-a["relevance_score"], a["published"])]. *)
Definition sort_key (a : Article) : Z * string :=
  ((- a_relevance_score a)%Z, a_published a).

(** [k1 < k2] on key tuples: the first components decide unless they are
    equal; strings compare by code point. *)
Definition key_lt (k1 k2 : Z * string) : bool :=
  if decide (k1.1 = k2.1) then String.ltb k1.2 k2.2 else (k1.1 <? k2.1)%Z.

(** Insertion of [a] before the first element that is not strictly smaller. *)
Fixpoint insert_sorted (a : Article) (l : list Article) : list Article :=
  match l with
  | [] => [a]
  | b :: l' =>
      if key_lt (sort_key b) (sort_key a) then b :: insert_sorted a l'
      else a :: b :: l'
  end.

(** [sorted(l, key=...)] and [l.sort(key=...)]: a stable sort, elements with
    equal keys keep their order. *)
Definition sorted (l : list Article) : list Article :=
  foldr insert_sorted [] l.

Record Outputs := mkOutputs {
  main_feed : list Article;
  industry_feeds : list (string * list Article);
  vendor_adobe : list Article;
  vendor_salesforce : list Article;
  article_count : nat
}.

(** The vendor comprehension of [build_output_files] for vendor [v]. *)
Definition vendor_subset (v : string) (all_articles : list Article) : list Article :=
  filter (fun a => a_source_category a = v ∨ v ∈ get (a_vendors a) []) all_articles.

(** [build_output_files(all_articles, config)]: the lists handed to
    [write_json] (feed health is [feed_health] below; the time stamps of
    the metadata are left out). *)
Definition build_output_files (all_articles : list Article) (config : Config)
    : Outputs :=
  let main := sorted all_articles in
  let industry_feed industry :=
    let subset := filter (fun a => industry ∈ a_industries a) all_articles in
    take MAX_ARTICLES_PER_OUTPUT (sorted subset) in
  let adobe := sorted (vendor_subset "adobe" all_articles) in
  let salesforce := sorted (vendor_subset "salesforce" all_articles) in
  {| main_feed := take MAX_ARTICLES_PER_OUTPUT main;
     industry_feeds :=
       (fun kv => (kv.1, industry_feed kv.1)) <$> get (industry_keywords config) [];
     vendor_adobe := take MAX_ARTICLES_PER_OUTPUT adobe;
     vendor_salesforce := take MAX_ARTICLES_PER_OUTPUT salesforce;
     article_count := length all_articles |}.

(** The loop of [build_output_files] that fills [feed_health]: a dictionary
    from feed name to the pair of ["status"] and ["articles"]; a later feed
    of the same name overwrites the earlier entry.  The groups are
    [config.get("feeds", {}).values()]: a configuration without the key is
    one with no group. *)
Definition feed_health (all_articles : list Article) (config : Config)
    : gmap string (string * nat) :=
  fold_left
    (fun feed_health group =>
       fold_left
         (fun feed_health feed_info =>
            let name := f_name feed_info in
            let count :=
              length (filter (fun a => a_source a = replace "GN - " "" name)
                             all_articles) in
            <[name := (if decide (0 < count) then "ok" else "empty", count)]>
              feed_health)
         group feed_health)
    (snd <$> feeds config) ∅.

(** ** Pipeline of [main] *)

(** The three assignments [main] makes to each fetched article; [None] when
    the scorer raises. *)
Definition annotate (parse_date : Z -> string -> parsed) (now : Z)
    (config : Config) (article : Article) : option Article :=
  score ← compute_relevance_score parse_date now article config;
  let industries := classify_industries article config in
  let vendors := classify_vendors article config in
  Some
    {| a_id := a_id article; a_title := a_title article; a_url := a_url article;
       a_source := a_source article; a_source_category := a_source_category article;
       a_published := a_published article; a_summary := a_summary article;
       a_image_url := a_image_url article; a_tags := a_tags article;
       a_industries := industries; a_vendors := Some vendors;
       a_relevance_score := score |}.

(** [article.pop("vendors", None)] *)
Definition pop_vendors (article : Article) : Article :=
  {| a_id := a_id article; a_title := a_title article; a_url := a_url article;
     a_source := a_source article; a_source_category := a_source_category article;
     a_published := a_published article; a_summary := a_summary article;
     a_image_url := a_image_url article; a_tags := a_tags article;
     a_industries := a_industries article; a_vendors := None;
     a_relevance_score := a_relevance_score article |}.

(** [main] from "Deduplicate" on: [all_articles] is the list accumulated by
    the fetch loop, every article annotated. *)
Definition main (all_articles : list Article) (config : Config)
    : option Outputs :=
  all_articles ← deduplicate all_articles;
  let all_articles := pop_vendors <$> all_articles in
  Some (build_output_files all_articles config).

(** ** Text steps of [normalize_entry] *)

(** The title step: [if len(title) > 300: title = title[:297] + "..."]. *)
Definition cap_title (title : string) : string :=
  if decide (300 < cp_length title) then cp_take 297 title +:+ "..."
  else title.

(** The summary step:
    [if len(summary) > 280: summary = summary[:277].rsplit(" ", 1)[0] + "..."]. *)
Definition cap_summary (summary : string) : string :=
  if decide (280 < cp_length summary)
  then rsplit_head (cp_take 277 summary) +:+ "..."
  else summary.

(** [feed_info["name"].replace("GN - ", "")], the [source] that
    [normalize_entry] gives an article and the name [build_output_files]
    compares it with. *)
Definition feed_source (feed_info : FeedInfo) : string :=
  replace "GN - " "" (f_name feed_info).

(** ** Vocabulary of the specification *)

(** The three keyword tiers and their weights as the specification lists
    them: 45/15, 24/8 and 9/3. *)
Inductive Tier := High | Medium | Low.

Definition title_weight (t : Tier) : Z :=
  match t with High => 45 | Medium => 24 | Low => 9 end.

Definition summary_weight (t : Tier) : Z :=
  match t with High => 15 | Medium => 8 | Low => 3 end.

Definition tier_keywords (t : Tier) (config : Config) : list string :=
  let relevance := get (relevance_keywords config) (mkRelevance None None None) in
  match t with
  | High => get (high_weight relevance) []
  | Medium => get (medium_weight relevance) []
  | Low => get (low_weight relevance) []
  end.

Definition in_title (kw : string) (article : Article) : bool :=
  str_in (lower kw) (lower (a_title article)).

Definition in_summary (kw : string) (article : Article) : bool :=
  str_in (lower kw) (lower (a_summary article)).

(** What one keyword of tier [t] is worth on [article]: the title weight on a
    title match, else the summary weight on a summary match, else nothing. *)
Definition keyword_gain (t : Tier) (article : Article) (kw : string) : Z :=
  if in_title kw article then title_weight t
  else if in_summary kw article then summary_weight t
  else 0%Z.

Definition tier_total (t : Tier) (article : Article) (config : Config) : Z :=
  foldr Z.add 0%Z (keyword_gain t article <$> tier_keywords t config).

(** Time elapsed between the published instant and the scoring instant. *)
Definition elapsed_since (now : Z) (d : datetime) : Z := (now - instant_of d)%Z.

(** The recency bonus as the specification tabulates it; none is defined
    when the parser's exception is not caught. *)
Definition recency_bonus (outcome : parsed) (now : Z) : option Z :=
  match outcome with
  | Parsed d =>
      Some (if decide (elapsed_since now d < 6 * HOUR)%Z then 15%Z
            else if decide (elapsed_since now d < 12 * HOUR)%Z then 10%Z
            else if decide (elapsed_since now d < 24 * HOUR)%Z then 5%Z
            else 0%Z)
  | Unparseable => Some 0%Z
  | Escapes => None
  end.

(** The scorer's last two lines: floor at 10, cap at 100. *)
Definition clamp (raw : Z) : Z := Z.min (Z.max raw 10) 100.

(** Jaccard similarity of two token sets above 0.85 = 17/20, in integers. *)
Definition jaccard_exceeds (w1 w2 : gset string) : Prop :=
  17 * size (w1 ∪ w2) < 20 * size (w1 ∩ w2).

(** A title too short for fuzzy comparison. *)
Definition short_title (article : Article) : Prop :=
  size (title_words article) < 3.

#[global] Instance short_title_dec (article : Article) : Decision (short_title article) :=
  decide (size (title_words article) < 3).

(** Two articles the fuzzy pass would take for duplicates of each other:
    both titles have three tokens or more and their similarity is above the
    threshold. *)
Definition fuzzy_twins (a b : Article) : bool :=
  bool_decide (3 ≤ size (title_words a))%nat &&
  bool_decide (3 ≤ size (title_words b))%nat &&
  similar (title_words b) (title_words a).

(** No article of the list is a fuzzy twin of an earlier one. *)
Fixpoint twin_free (l : list Article) : bool :=
  match l with
  | [] => true
  | a :: l' => forallb (fun b => negb (fuzzy_twins a b)) l' && twin_free l'
  end.

(** The order of an output feed: higher score first, and among equal scores
    the smaller [published] text first. *)
Definition feed_order (a b : Article) : Prop :=
  (a_relevance_score b < a_relevance_score a)%Z ∨
  (a_relevance_score a = a_relevance_score b ∧
   String.leb (a_published a) (a_published b) = true).

(** [a] is the article of [l] with identifier [aid] that exact
    deduplication must keep: it has the greatest score among the articles of
    [l] with that identifier, and every such article before it scores
    strictly less. *)
Definition best_of (aid : string) (l : list Article) (a : Article) : Prop :=
  a_id a = aid ∧
  ∃ i, l !! i = Some a ∧
       ∀ j b, l !! j = Some b → a_id b = aid →
              (a_relevance_score b ≤ a_relevance_score a)%Z ∧
              (j < i → (a_relevance_score b < a_relevance_score a)%Z).

(** The invariant of the first loop after the articles [processed]. *)
Definition exact_inv (processed : list Article)
    (st : gmap string Article * list Article) : Prop :=
  (∀ aid, st.1 !! aid = None → aid ∉ a_id <$> processed) ∧
  (∀ aid a, st.1 !! aid = Some a →
            best_of aid processed a ∧
            filter (fun x => a_id x = aid) st.2 = [a]) ∧
  st.2 ⊆+ processed.

(** The invariant of the second loop after the articles [processed]: the
    two lists run in parallel, and every slot holds one of the articles
    seen, none twice. *)
Definition fuzzy_inv (processed : list Article)
    (st : list Article * list (gset string)) : Prop :=
  st.2 = title_words <$> st.1 ∧ st.1 ⊆+ processed.

(** The number of surviving articles attributed to a feed. *)
Definition feed_count (all_articles : list Article) (feed_info : FeedInfo) : nat :=
  length (filter (fun a => a_source a = feed_source feed_info) all_articles).

(** All feed descriptors of the configuration, group after group. *)
Definition all_feeds (config : Config) : list FeedInfo :=
  concat (snd <$> feeds config).

(** The [feed_health] entry computed for a feed name: its ["status"] and its
    ["articles"] count. *)
Definition health_of (all_articles : list Article) (name : string) : string * nat :=
  let count :=
    length (filter (fun a => a_source a = replace "GN - " "" name) all_articles) in
  (if decide (0 < count) then "ok" else "empty", count).

(** The total of the ["articles"] counts of a [feed_health] dictionary. *)
Definition health_total (health : gmap string (string * nat)) : nat :=
  map_fold (fun _ entry total => entry.2 + total) 0 health.

(** The keyword match of the classifiers on one entry of a keyword map. *)
Definition label_matches (text : string) (entry : string * list string) : Prop :=
  ∃ kw, kw ∈ entry.2 ∧ ∃ before after, text = before +:+ lower kw +:+ after.

(** Two keyword maps with the same labels whose keywords agree, entry by
    entry, once lower-cased. *)
Definition same_keywords (m m' : list (string * list string)) : Prop :=
  Forall2 (fun kv kv' => kv.1 = kv'.1 ∧ lower <$> kv.2 = lower <$> kv'.2) m m'.

End Code.

(** ** ASCII text *)

(** [c.lower()] on one ASCII character. *)
Definition lower_ascii (c : ascii) : ascii :=
  let n := nat_of_ascii c in
  if (65 <=? n)%nat && (n <=? 90)%nat then ascii_of_nat (n + 32) else c.

(** [s.lower()] on ASCII text. *)
Fixpoint ascii_lower (s : string) : string :=
  match s with
  | EmptyString => EmptyString
  | String c s' => String (lower_ascii c) (ascii_lower s')
  end.

(** An ASCII character matched by [\w]. *)
Definition ascii_word_char (c : ascii) : bool :=
  let n := nat_of_ascii c in
  ((48 <=? n)%nat && (n <=? 57)%nat) ||
  ((65 <=? n)%nat && (n <=? 90)%nat) ||
  ((97 <=? n)%nat && (n <=? 122)%nat) ||
  (n =? 95)%nat.

(** [re.findall(r"\w+", s)] on ASCII text: the maximal runs of word
    characters, left to right.  [cur] is the run being read, in reverse. *)
Fixpoint ascii_findall_words_from (cur : list ascii) (s : string) : list string :=
  let flush := match cur with
               | [] => []
               | _ => [string_of_list_ascii (rev cur)]
               end in
  match s with
  | EmptyString => flush
  | String c s' =>
      if ascii_word_char c then ascii_findall_words_from (c :: cur) s'
      else flush ++ ascii_findall_words_from [] s'
  end.

Definition ascii_findall_words (s : string) : list string :=
  ascii_findall_words_from [] s.

(** The two operations as Python performs them on text made of ASCII
    characters only; used for the examples, all of which are ASCII. *)
Definition ascii_text : Unicode :=
  {| lower := ascii_lower; findall_words := ascii_findall_words |}.

(** ** Sample data *)

Definition article (aid title category : string) (vendors : option (list string))
    (published : string) (score : Z) : Article :=
  {| a_id := aid; a_title := title; a_url := "https://example.com/" +:+ aid;
     a_source := "Example"; a_source_category := category;
     a_published := published; a_summary := "";
     a_image_url := None; a_tags := []; a_industries := [];
     a_vendors := vendors; a_relevance_score := score |}.

(** The parser on the published texts of the examples: it reads the epoch
    timestamp, whatever the clock says, raises [OverflowError] on the run of
    twenty digits, and rejects the rest with [ValueError], as dateutil does
    with ["not a date"]. *)
Definition sample_parse (now : Z) (s : string) : parsed :=
  if decide (s = "1970-01-01T00:00:00+00:00")
  then Parsed {| dt_wall := 0; dt_utcoffset := Some 0%Z |}
  else if decide (s = "99999999999999999999") then Escapes
  else Unparseable.

Definition ai_config : Config :=
  {| relevance_keywords :=
       Some {| high_weight := Some ["AI"]; medium_weight := None;
               low_weight := Some ["suite"] |};
     industry_keywords := None;
     vendor_keywords := Some [("adobe", ["adobe"; "photoshop"]);
                              ("salesforce", ["salesforce"])];
     feeds := [] |}.

Definition ai_in_title : Article :=
  article "a1" "Adobe unveils new AI marketing suite" "martech" None
          "1970-01-01T00:00:00+00:00" 0.

Definition ai_in_summary : Article :=
  {| a_id := "a2"; a_title := "Vendor unveils new marketing suite";
     a_url := "https://example.com/a2"; a_source := "Example";
     a_source_category := "martech"; a_published := "not a date";
     a_summary := "Built on generative AI."; a_image_url := None;
     a_tags := []; a_industries := []; a_vendors := None;
     a_relevance_score := 0 |}.

(** An article whose published text is a run of twenty digits. *)
Definition overflowing_date : Article :=
  article "a3" "Adobe unveils new AI marketing suite" "martech" None
          "99999999999999999999" 0.

(** The same link reached through three feeds, the later copies scored
    higher, and an unrelated link in between. *)
Definition same_link_feed : list Article :=
  [ article "aaa" "Adobe ships Firefly update" "adobe" (Some ["adobe"])
            "2024-05-01T08:00:00+00:00" 25;
    article "bbb" "Retail media spend grows again" "retail" (Some [])
            "2024-05-01T09:00:00+00:00" 33;
    article "aaa" "Adobe ships Firefly update" "martech" (Some ["adobe"])
            "2024-05-01T08:00:00+00:00" 40;
    article "aaa" "Adobe ships Firefly update today" "general" (Some ["adobe"])
            "2024-05-01T08:00:00+00:00" 40 ].

(** Three short-titled and two long-titled items; the last repeats the
    title of the third word for word. *)
Definition short_feed : list Article :=
  [ article "s1" "Breaking" "general" (Some []) "2024-05-01T08:00:00+00:00" 10;
    article "s2" "Breaking" "general" (Some []) "2024-05-01T08:05:00+00:00" 90;
    article "l1" "Salesforce launches Agentforce for retail marketers" "salesforce"
            (Some ["salesforce"]) "2024-05-01T08:10:00+00:00" 50;
    article "s3" "Breaking news" "general" (Some []) "2024-05-01T08:15:00+00:00" 20;
    article "l2" "Salesforce launches Agentforce for retail marketers" "martech"
            (Some ["salesforce"]) "2024-05-01T08:20:00+00:00" 70 ].

(** Two headlines on one story, four tokens of six in common. *)
Definition launch_story : Article :=
  article "f01" "Salesforce launches Agentforce 3.0" "salesforce" (Some ["salesforce"])
          "2024-05-01T08:00:00+00:00" 60.

Definition unveil_story : Article :=
  article "f02" "Salesforce unveils Agentforce 3.0" "martech" (Some ["salesforce"])
          "2024-05-01T09:00:00+00:00" 45.

(** Two headlines that differ by one token of nine. *)
Definition firefly_story : Article :=
  article "f03" "Adobe ships new Firefly update for marketing teams" "adobe"
          (Some ["adobe"]) "2024-05-01T08:00:00+00:00" 50.

Definition firefly_story_again : Article :=
  article "f04" "Adobe ships new Firefly update for marketing teams today" "martech"
          (Some ["adobe"]) "2024-05-01T10:00:00+00:00" 70.

(** Three headlines of six, eight and seven tokens, each set containing the
    shorter ones: the first and third are similar (6/7), the third and second
    are similar (7/8), the first and second are not (6/8). *)
Definition chain_first : Article :=
  article "c01" "Adobe ships Firefly update for marketers" "adobe" (Some ["adobe"])
          "2024-05-01T08:00:00+00:00" 10.

Definition chain_second : Article :=
  article "c02" "Adobe ships Firefly update for marketers worldwide today" "martech"
          (Some ["adobe"]) "2024-05-01T09:00:00+00:00" 20.

Definition chain_third : Article :=
  article "c03" "Adobe ships Firefly update for marketers worldwide" "general"
          (Some ["adobe"]) "2024-05-01T10:00:00+00:00" 30.

Definition chain_feed : list Article := [chain_first; chain_second; chain_third].

(** An item about an Adobe product from a feed that is not an Adobe feed, as
    [normalize_entry] leaves it (no ["vendors"] key yet). *)
Definition photoshop_story : Article :=
  article "p01" "Photoshop gains generative fill for marketers" "martech" None
          "1970-01-01T00:00:00+00:00" 0.

(** The same item as [main] annotates it under [ai_config], thirty hours
    after publication. *)
Definition photoshop_annotated : Article :=
  {| a_id := "p01"; a_title := "Photoshop gains generative fill for marketers";
     a_url := "https://example.com/p01"; a_source := "Example";
     a_source_category := "martech"; a_published := "1970-01-01T00:00:00+00:00";
     a_summary := ""; a_image_url := None; a_tags := []; a_industries := [];
     a_vendors := Some ["adobe"]; a_relevance_score := 45 |}.

(** A configuration with no [feeds] and the given keyword maps. *)
Definition keyword_config (relevance : option RelevanceKeywords)
    (industries vendors : option (list (string * list string))) : Config :=
  {| relevance_keywords := relevance; industry_keywords := industries;
     vendor_keywords := vendors; feeds := [] |}.

(** The first sample article shouting, and the sample keywords recased. *)
Definition ai_in_title_upper : Article :=
  article "a1" "ADOBE UNVEILS NEW AI MARKETING SUITE" "martech" None
          "1970-01-01T00:00:00+00:00" 0.

Definition ai_config_recased : Config :=
  {| relevance_keywords :=
       Some {| high_weight := Some ["ai"]; medium_weight := Some [];
               low_weight := Some ["SUITE"] |};
     industry_keywords := None;
     vendor_keywords := Some [("adobe", ["Adobe"; "PhotoShop"]);
                              ("salesforce", ["SALESFORCE"])];
     feeds := [] |}.

Definition photoshop_story_upper : Article :=
  article "p01" "PHOTOSHOP GAINS GENERATIVE FILL FOR MARKETERS" "martech" None
          "1970-01-01T00:00:00+00:00" 0.

(** Five one- and two-word headlines, one link seen twice. *)
Definition brief_feed : list Article :=
  [ article "b1" "Breaking" "general" (Some []) "2024-05-01T08:00:00+00:00" 10;
    article "b2" "Breaking news" "general" (Some []) "2024-05-01T08:05:00+00:00" 30;
    article "b1" "Breaking" "martech" (Some []) "2024-05-01T08:00:00+00:00" 20;
    article "b3" "Breaking" "retail" (Some []) "2024-05-01T08:15:00+00:00" 20 ].

(** A configuration with two industries and two feeds, one of them listed
    under its aggregator prefix, and two fetched items. *)
Definition retail_config : Config :=
  {| relevance_keywords :=
       Some {| high_weight := Some ["loyalty"]; medium_weight := Some ["retail"];
               low_weight := None |};
     industry_keywords := Some [("retail", ["retail"; "store"]); ("finance", ["bank"])];
     vendor_keywords := Some [("adobe", ["adobe"; "photoshop"]);
                              ("salesforce", ["salesforce"])];
     feeds := [("vendors", [mkFeed "Salesforce Blog" "https://example.com/sf" "salesforce"]);
               ("news", [mkFeed "GN - Retail Dive" "https://example.com/rd" "retail"])] |}.

Definition store_story : Article :=
  {| a_id := "r01"; a_title := "Retail store traffic rebounds";
     a_url := "https://example.com/r01"; a_source := "Retail Dive";
     a_source_category := "retail"; a_published := "1970-01-01T00:00:00+00:00";
     a_summary := ""; a_image_url := None; a_tags := []; a_industries := [];
     a_vendors := None; a_relevance_score := 0 |}.

Definition bank_story : Article :=
  {| a_id := "r02"; a_title := "Bank launches loyalty app";
     a_url := "https://example.com/r02"; a_source := "Salesforce Blog";
     a_source_category := "salesforce"; a_published := "1970-01-01T00:00:00+00:00";
     a_summary := ""; a_image_url := None; a_tags := []; a_industries := [];
     a_vendors := None; a_relevance_score := 0 |}.

(** The two items as [main] annotates them under [retail_config], thirty
    hours after publication. *)
Definition annotated_feed : list Article :=
  omap (annotate (U := ascii_text) sample_parse (30 * HOUR) retail_config)
       [store_story; bank_story].

(** A text of [n] five-letter words, each followed by a space. *)
Fixpoint filler (n : nat) : string :=
  match n with
  | O => ""
  | S n' => "lorem " +:+ filler n'
  end.

(** A summary of 280 characters, the last word with a typographic
    apostrophe, and a title of 300 characters with an accented letter. *)
Definition curly_summary : string := filler 46 +:+ "it’s".

Definition accented_title : string := filler 49 +:+ "café !".

(** * Properties *)

(** ** Relevance scorer *)

Section ScorerFacts.

Context {U : Unicode}.

Lemma keyword_loop_sum tw sw tl sl kws score :
  keyword_loop tw sw tl sl kws score =
  (score + foldr Z.add 0
     ((fun kw => if str_in (lower kw) tl then tw
                 else if str_in (lower kw) sl then sw else 0) <$> kws))%Z.
Proof.
  unfold keyword_loop. revert score.
  induction kws as [|kw kws IH]; intros score; simpl.
  - lia.
  - rewrite IH. unfold fmap.
    destruct (str_in (lower kw) tl); [lia|].
    destruct (str_in (lower kw) sl); lia.
Qed.

Lemma recency_boost_bonus parse_date now published score :
  recency_boost parse_date now published score =
  (fun bonus => (score + bonus)%Z) <$> recency_bonus (parse_date now published) now.
Proof.
  unfold recency_boost, recency_bonus, elapsed_since.
  destruct (parse_date now published) as [d| |]; cbn; [|by rewrite Z.add_0_r|done].
  repeat case_decide; repeat (case_match; try lia); f_equal; lia.
Qed.

Lemma compute_relevance_score_split parse_date now article config :
  compute_relevance_score parse_date now article config =
  (fun bonus =>
     Z.min (Z.max (tier_total High article config + tier_total Medium article config
                   + tier_total Low article config + bonus) 10) 100)
    <$> recency_bonus (parse_date now (a_published article)) now.
Proof.
  unfold compute_relevance_score. rewrite recency_boost_bonus.
  rewrite !keyword_loop_sum. unfold tier_total, tier_keywords, keyword_gain.
  unfold in_title, in_summary.
  destruct (recency_bonus _ now) as [bonus|]; cbn; [|done]. do 3 f_equal; lia.
Qed.

Lemma clamp_range (raw : Z) : (10 ≤ Z.min (Z.max raw 10) 100 ≤ 100)%Z.
Proof. lia. Qed.

Lemma scorer_range parse_date now article config score :
  compute_relevance_score parse_date now article config = Some score →
  (10 ≤ score ≤ 100)%Z.
Proof.
  rewrite compute_relevance_score_split.
  destruct (recency_bonus _ now) as [bonus|]; cbn; [|done].
  intros [= <-]. apply clamp_range.
Qed.

Lemma scorer_returns parse_date now article config :
  parse_date now (a_published article) ≠ Escapes →
  is_Some (compute_relevance_score parse_date now article config).
Proof.
  intros Hno. rewrite compute_relevance_score_split.
  by destruct (parse_date now (a_published article)).
Qed.

(** C2: whatever the article, the configuration, the parser and the clock,
    every value the scorer returns is an integer between 10 and 100
    inclusive, and it returns one whenever the date parser raises nothing
    but a [ValueError] or a [TypeError]. *)
Theorem relevance_score_bounds parse_date now article config :
  (∀ score, compute_relevance_score parse_date now article config = Some score →
            (10 ≤ score ≤ 100)%Z) ∧
  (parse_date now (a_published article) ≠ Escapes →
   ∃ score, compute_relevance_score parse_date now article config = Some score ∧
            (10 ≤ score ≤ 100)%Z).
Proof.
  split.
  - intros score. apply scorer_range.
  - intros Hno. destruct (scorer_returns parse_date now article config Hno)
      as [score Hscore].
    exists score. split; [done|]. by eapply scorer_range.
Qed.

Lemma summary_below_title t : (0 < summary_weight t < title_weight t)%Z.
Proof. destruct t; simpl; lia. Qed.

(** C6: the score is the clamped sum, over the three tiers, of what each
    keyword gains, plus the recency bonus; a keyword gains the title weight
    of its tier (45, 24, 9) when its lower-cased form occurs in the
    lower-cased title, else the summary weight (15, 8, 3) when it occurs in
    the lower-cased summary, else nothing, so never both; and a keyword found
    in the title of one article gains strictly more than the same keyword
    found only in the summary of another, in every tier. *)
Theorem keyword_contribution parse_date now article config :
  compute_relevance_score parse_date now article config =
    (fun bonus =>
       Z.min (Z.max (tier_total High article config + tier_total Medium article config
                     + tier_total Low article config + bonus) 10) 100)
      <$> recency_bonus (parse_date now (a_published article)) now
  ∧ (∀ t, tier_total t article config =
          foldr Z.add 0%Z (keyword_gain t article <$> tier_keywords t config))
  ∧ (title_weight High, title_weight Medium, title_weight Low) = (45, 24, 9)%Z
  ∧ (summary_weight High, summary_weight Medium, summary_weight Low) = (15, 8, 3)%Z
  ∧ ∀ t kw,
      (str_in (lower kw) (lower (a_title article)) = true →
         keyword_gain t article kw = title_weight t)
      ∧ (str_in (lower kw) (lower (a_title article)) = false →
         str_in (lower kw) (lower (a_summary article)) = true →
         keyword_gain t article kw = summary_weight t)
      ∧ (str_in (lower kw) (lower (a_title article)) = false →
         str_in (lower kw) (lower (a_summary article)) = false →
         keyword_gain t article kw = 0%Z)
      ∧ (∀ other, str_in (lower kw) (lower (a_title article)) = true →
           str_in (lower kw) (lower (a_title other)) = false →
           str_in (lower kw) (lower (a_summary other)) = true →
           (keyword_gain t other kw < keyword_gain t article kw)%Z).
Proof.
  split; [apply compute_relevance_score_split|].
  split; [done|].
  do 2 (split; [reflexivity|]).
  intros t kw. unfold keyword_gain, in_title, in_summary.
  repeat split.
  - intros ->. reflexivity.
  - intros -> ->. reflexivity.
  - intros -> ->. reflexivity.
  - intros other -> -> ->. apply summary_below_title.
Qed.

(** C7, as the code has it: when the parser reads the published text, the
    recency step adds 15 if the instant read (the wall-clock reading less
    its UTC offset, a reading without offset being taken as UTC) is less
    than 6 hours before the scoring instant, 10 if less than 12 hours, 5 if
    less than 24 hours and nothing otherwise; when the parser rejects the
    text with a [ValueError] or a [TypeError] the step adds nothing and the
    scorer returns a score within bounds; an exception of another type
    leaves the scorer. *)
Theorem recency_component parse_date now article config base :
  let published := a_published article in
  compute_relevance_score parse_date now article config =
    (fun bonus =>
       Z.min (Z.max (tier_total High article config + tier_total Medium article config
                     + tier_total Low article config + bonus) 10) 100)
      <$> recency_bonus (parse_date now published) now
  ∧ (∀ wall tz, parse_date now published = Parsed (mkDatetime wall tz) →
       let elapsed :=
         (now - (wall - match tz with Some offset => offset | None => 0 end))%Z in
       ((elapsed < 6 * 3600000000)%Z →
          recency_boost parse_date now published base = Some (base + 15)%Z)
       ∧ ((6 * 3600000000 ≤ elapsed < 12 * 3600000000)%Z →
          recency_boost parse_date now published base = Some (base + 10)%Z)
       ∧ ((12 * 3600000000 ≤ elapsed < 24 * 3600000000)%Z →
          recency_boost parse_date now published base = Some (base + 5)%Z)
       ∧ ((24 * 3600000000 ≤ elapsed)%Z →
          recency_boost parse_date now published base = Some base))
  ∧ (parse_date now published = Unparseable →
       recency_boost parse_date now published base = Some base
       ∧ ∃ score, compute_relevance_score parse_date now article config = Some score
                  ∧ (10 ≤ score ≤ 100)%Z)
  ∧ (parse_date now published = Escapes →
       recency_boost parse_date now published base = None
       ∧ compute_relevance_score parse_date now article config = None).
Proof.
  intros published.
  split; [apply compute_relevance_score_split|].
  split_and!.
  - intros wall tz Hd elapsed. rewrite recency_boost_bonus, Hd.
    unfold recency_bonus, elapsed_since, instant_of, HOUR. cbn.
    subst elapsed. destruct tz as [offset|]; cbn;
      repeat split; intros H; repeat case_decide; f_equal; lia.
  - intros Hbad. split.
    + rewrite recency_boost_bonus, Hbad. cbn. f_equal. lia.
    + destruct (scorer_returns parse_date now article config) as [score Hscore].
      { fold published. by rewrite Hbad. }
      exists score. split; [done|]. by eapply scorer_range.
  - intros Hesc. split.
    + by rewrite recency_boost_bonus, Hesc.
    + rewrite compute_relevance_score_split. fold published. by rewrite Hesc.
Qed.

End ScorerFacts.

Section ScorerExamples.

(** Examples on ASCII text, lower-cased and tokenized by [ascii_text]. *)
#[local] Existing Instance ascii_text.

Lemma relevance_score_bounds_witness :
  ∃ score, compute_relevance_score sample_parse (30 * HOUR) ai_in_summary ai_config
             = Some score ∧ (10 ≤ score ≤ 100)%Z.
Proof.
  apply (relevance_score_bounds sample_parse (30 * HOUR) ai_in_summary ai_config).
  discriminate.
Defined.

Lemma keyword_contribution_witness :
  compute_relevance_score sample_parse (30 * HOUR) ai_in_title ai_config = Some 54%Z
  ∧ keyword_gain High ai_in_title "AI" = 45%Z
  ∧ keyword_gain High ai_in_summary "AI" = 15%Z
  ∧ keyword_gain High ai_in_title_upper "ai" = 45%Z
  ∧ keyword_gain Medium ai_in_summary "Adobe" = 0%Z
  ∧ (keyword_gain Low ai_in_summary "AI" < keyword_gain Low ai_in_title "AI")%Z.
Proof.
  destruct (keyword_contribution sample_parse (30 * HOUR) ai_in_title ai_config)
    as (Hscore & _ & _ & _ & Hkw).
  destruct (keyword_contribution sample_parse (30 * HOUR) ai_in_summary ai_config)
    as (_ & _ & _ & _ & Hkw').
  destruct (keyword_contribution sample_parse (30 * HOUR) ai_in_title_upper ai_config)
    as (_ & _ & _ & _ & Hkw'').
  split; [rewrite Hscore; reflexivity|].
  split; [apply (Hkw High "AI"); reflexivity|].
  split; [apply (Hkw' High "AI"); reflexivity|].
  split; [apply (Hkw'' High "ai"); reflexivity|].
  split; [apply (Hkw' Medium "Adobe"); reflexivity|].
  apply (Hkw Low "AI"); reflexivity.
Defined.

Lemma recency_component_witness :
  recency_boost sample_parse (5 * HOUR) (a_published ai_in_title) 45 = Some 60%Z
  ∧ recency_boost sample_parse (23 * HOUR) (a_published ai_in_title) 45 = Some 50%Z
  ∧ recency_boost sample_parse (5 * HOUR) (a_published ai_in_summary) 18 = Some 18%Z
  ∧ compute_relevance_score sample_parse (5 * HOUR) overflowing_date ai_config = None.
Proof.
  destruct (recency_component sample_parse (5 * HOUR) ai_in_title ai_config 45)
    as (_ & Hfresh & _ & _).
  destruct (recency_component sample_parse (23 * HOUR) ai_in_title ai_config 45)
    as (_ & Hday & _ & _).
  destruct (recency_component sample_parse (5 * HOUR) ai_in_summary ai_config 18)
    as (_ & _ & Hbad & _).
  destruct (recency_component sample_parse (5 * HOUR) overflowing_date ai_config 0)
    as (_ & _ & _ & Hesc).
  split_and!.
  - apply (Hfresh 0%Z (Some 0%Z)); [reflexivity | vm_compute; reflexivity].
  - apply (Hday 0%Z (Some 0%Z));
      [reflexivity | vm_compute; split; [discriminate | reflexivity]].
  - apply Hbad. reflexivity.
  - apply Hesc. reflexivity.
Defined.

(** C7, as first stated, fails: on a published text that the parser cannot
    read but answers with an exception of another type than [ValueError] and
    [TypeError], the scorer returns no score. *)
Lemma scorer_raises_on_overflow :
  sample_parse 0 (a_published overflowing_date) = Escapes ∧
  compute_relevance_score sample_parse 0 overflowing_date ai_config = None ∧
  ¬ ∃ score, compute_relevance_score sample_parse 0 overflowing_date ai_config
               = Some score.
Proof.
  assert (Hnone : compute_relevance_score sample_parse 0 overflowing_date ai_config
                  = None) by (vm_compute; reflexivity).
  split_and!; [reflexivity|done|]. intros [score Hscore]. congruence.
Qed.

End ScorerExamples.

(** ** First pass of the deduplicator *)

Lemma best_of_snoc aid l a x :
  best_of aid l a →
  (a_id x = aid → (a_relevance_score x ≤ a_relevance_score a)%Z) →
  best_of aid (l ++ [x]) a.
Proof.
  intros (Hid & i & Hi & Hbest) Hx. split; [done|].
  exists i. split; [by apply lookup_app_l_Some|].
  intros j b Hj Hb. apply lookup_app_Some in Hj as [Hj|[Hlen Hj]].
  - by apply Hbest.
  - apply list_lookup_singleton_Some in Hj as [_ <-].
    split; [by apply Hx|]. apply lookup_lt_Some in Hi. lia.
Qed.

Lemma best_of_snoc_new aid l x :
  a_id x = aid →
  (∀ b, b ∈ l → a_id b = aid → (a_relevance_score b < a_relevance_score x)%Z) →
  best_of aid (l ++ [x]) x.
Proof.
  intros Hid Hlt. split; [done|]. exists (length l). split.
  - rewrite lookup_app_r by lia. by rewrite Nat.sub_diag.
  - intros j b Hj Hb. apply lookup_app_Some in Hj as [Hj|[Hlen Hj]].
    + apply list_elem_of_lookup_2 in Hj. specialize (Hlt b Hj Hb). lia.
    + apply list_lookup_singleton_Some in Hj as [_ <-]. lia.
Qed.

Lemma best_of_elem aid l a : best_of aid l a → a ∈ l ∧ a_id a = aid.
Proof.
  intros (Hid & i & Hi & _). split; [|done]. by eapply list_elem_of_lookup_2.
Qed.

Lemma best_of_max aid l a b :
  best_of aid l a → b ∈ l → a_id b = aid →
  (a_relevance_score b ≤ a_relevance_score a)%Z.
Proof.
  intros (_ & i & _ & Hbest) Hb Hid.
  apply list_elem_of_lookup_1 in Hb as [j Hj]. by apply (Hbest j b).
Qed.

Lemma filter_id_other (aid aid' : string) (l : list Article) :
  aid ≠ aid' →
  filter (fun x => a_id x = aid) (filter (fun a => a_id a ≠ aid') l) =
  filter (fun x => a_id x = aid) l.
Proof.
  intros Hne. induction l as [|y l IH]; [done|].
  destruct (decide (a_id y = aid')) as [Hy|Hy].
  - rewrite (filter_cons_False (fun a => a_id a ≠ aid')) by tauto.
    rewrite (filter_cons_False (fun x => a_id x = aid)) by congruence. done.
  - rewrite (filter_cons_True (fun a => a_id a ≠ aid')) by done.
    rewrite !(filter_cons (fun x => a_id x = aid)). case_decide; by rewrite IH.
Qed.

Lemma filter_id_same (aid : string) (l : list Article) :
  filter (fun x => a_id x = aid) (filter (fun a => a_id a ≠ aid) l) = [].
Proof.
  induction l as [|y l IH]; [done|].
  destruct (decide (a_id y = aid)) as [Hy|Hy].
  - by rewrite (filter_cons_False (fun a => a_id a ≠ aid)) by tauto.
  - rewrite (filter_cons_True (fun a => a_id a ≠ aid)) by done.
    by rewrite (filter_cons_False (fun x => a_id x = aid)) by done.
Qed.

Lemma filter_id_absent (aid : string) (l : list Article) :
  aid ∉ a_id <$> l → filter (fun x => a_id x = aid) l = [].
Proof.
  intros Hnot. induction l as [|y l IH]; [done|].
  rewrite fmap_cons, not_elem_of_cons in Hnot. destruct Hnot as [Hy Hl].
  rewrite filter_cons. case_decide; [congruence|by apply IH].
Qed.

Lemma filter_submseteq {A} (P : A → Prop) `{!∀ x, Decision (P x)} (l : list A) :
  filter P l ⊆+ l.
Proof. apply sublist_submseteq, sublist_filter. Qed.

Lemma ids_submseteq (l k : list Article) x :
  l ⊆+ k → x ∈ a_id <$> l → x ∈ a_id <$> k.
Proof.
  intros Hsub Hx. apply list_elem_of_fmap in Hx as (a & -> & Ha).
  apply list_elem_of_fmap. exists a. split; [done|]. by eapply elem_of_submseteq.
Qed.

Lemma exact_step_inv processed st x :
  exact_inv processed st → exact_inv (processed ++ [x]) (exact_step st x).
Proof.
  destruct st as [seen unique]. intros (Hnone & Hsome & Hsub). cbn [fst snd] in *.
  assert (Hother : ∀ aid a, a_id x ≠ aid → seen !! aid = Some a →
            best_of aid (processed ++ [x]) a ∧
            filter (fun y => a_id y = aid) (unique ++ [x]) = [a]).
  { intros aid a Hne Ha. destruct (Hsome aid a Ha) as [Hbest Hfil]. split.
    - apply best_of_snoc; [done|]. intros; congruence.
    - rewrite filter_app, Hfil, filter_cons_False by (simpl; congruence). done. }
  assert (Hfresh : ∀ aid, a_id x ≠ aid → seen !! aid = None →
            aid ∉ a_id <$> processed ++ [x]).
  { intros aid Hne Ha. rewrite fmap_app, elem_of_app. intros [Hin|Hin].
    - by apply (Hnone aid).
    - apply list_elem_of_singleton in Hin. congruence. }
  unfold exact_step.
  destruct (seen !! a_id x) as [old|] eqn:Hold.
  - destruct (Hsome _ _ Hold) as [Hbest Hfil]. case_decide as Hgt.
    + split_and!; cbn [fst snd].
      * intros aid. rewrite lookup_insert. case_decide; [done|]. by apply Hfresh.
      * intros aid a. rewrite lookup_insert. case_decide as Heq.
        -- intros [= <-]. subst aid. split.
           ++ apply best_of_snoc_new; [done|]. intros b Hb Hid.
              pose proof (best_of_max _ _ _ _ Hbest Hb Hid). lia.
           ++ rewrite filter_app, filter_id_same, filter_cons_True by done. done.
        -- intros Ha. destruct (Hother aid a Heq Ha) as [Hb Hf]. split; [done|].
           rewrite filter_app, filter_id_other by done. by rewrite filter_app in Hf.
      * apply submseteq_skips_r. etrans; [apply filter_submseteq|done].
    + split_and!; cbn [fst snd].
      * intros aid Ha. apply Hfresh; [congruence|done].
      * intros aid a Ha. destruct (decide (a_id x = aid)) as [Heq|Hne].
        -- subst aid. rewrite Hold in Ha. injection Ha as <-. split; [|done].
           apply best_of_snoc; [done|]. intros _. lia.
        -- destruct (Hother aid a Hne Ha) as [Hb Hf]. split; [done|].
           by destruct (Hsome _ _ Ha).
      * by apply submseteq_inserts_r.
  - split_and!; cbn [fst snd].
    + intros aid. rewrite lookup_insert. case_decide; [done|]. by apply Hfresh.
    + intros aid a. rewrite lookup_insert. case_decide as Heq.
      * intros [= <-]. subst aid. split.
        -- apply best_of_snoc_new; [done|]. intros b Hb Hid. exfalso.
           apply (Hnone _ Hold). apply list_elem_of_fmap. by exists b.
        -- rewrite filter_app, filter_id_absent, filter_cons_True; [done..|].
           intros Hin. apply (Hnone _ Hold). by eapply ids_submseteq.
      * intros Ha. by apply Hother.
    + by apply submseteq_skips_r.
Qed.

Lemma exact_loop_snoc l x : exact_loop (l ++ [x]) = exact_step (exact_loop l) x.
Proof. unfold exact_loop. by rewrite fold_left_app. Qed.

Lemma exact_loop_inv l : exact_inv l (exact_loop l).
Proof.
  induction l as [|x l IH] using rev_ind.
  - unfold exact_loop. split_and!; cbn [fold_left fst snd].
    + intros aid _. apply not_elem_of_nil.
    + intros aid a Ha. by rewrite lookup_empty in Ha.
    + done.
  - rewrite exact_loop_snoc. by apply exact_step_inv.
Qed.

Lemma exact_pass_submseteq l : exact_pass l ⊆+ l.
Proof. by destruct (exact_loop_inv l) as (_ & _ & Hsub). Qed.

Lemma exact_pass_filter_id l aid :
  length (filter (fun x => a_id x = aid) (exact_pass l)) ≤ 1.
Proof.
  destruct (exact_loop_inv l) as (Hnone & Hsome & Hsub). unfold exact_pass.
  destruct ((exact_loop l).1 !! aid) as [a|] eqn:Ha.
  - destruct (Hsome _ _ Ha) as [_ ->]. done.
  - rewrite filter_id_absent; [simpl; lia|].
    intros Hin. apply (Hnone _ Ha). by eapply ids_submseteq.
Qed.

Lemma NoDup_ids_filter (l : list Article) :
  (∀ aid, length (filter (fun x => a_id x = aid) l) ≤ 1) → NoDup (a_id <$> l).
Proof.
  induction l as [|x l IH]; intros Hone; [constructor|].
  rewrite fmap_cons. constructor.
  - intros Hin. apply list_elem_of_fmap in Hin as (y & Hid & Hy).
    specialize (Hone (a_id x)). rewrite filter_cons_True in Hone by done.
    assert (Hyf : y ∈ filter (fun z => a_id z = a_id x) l)
      by (apply list_elem_of_filter; split; [symmetry|]; done).
    destruct (filter _ l); [by apply not_elem_of_nil in Hyf|simpl in Hone; lia].
  - apply IH. intros aid. specialize (Hone aid).
    rewrite filter_cons in Hone. case_decide; simpl in Hone; lia.
Qed.

Lemma exact_pass_NoDup l : NoDup (a_id <$> exact_pass l).
Proof. apply NoDup_ids_filter. intros aid. apply exact_pass_filter_id. Qed.

Lemma exact_pass_best l aid :
  aid ∈ a_id <$> l →
  ∃ a, best_of aid l a ∧ filter (fun x => a_id x = aid) (exact_pass l) = [a].
Proof.
  intros Hin. destruct (exact_loop_inv l) as (Hnone & Hsome & _).
  destruct ((exact_loop l).1 !! aid) as [a|] eqn:Ha.
  - exists a. by apply Hsome.
  - by destruct (Hnone _ Ha).
Qed.

(** C4: after the exact-identity pass, for each identifier of the input
    exactly one article with that identifier is left; it is an article of the
    input whose score is the greatest among those sharing the identifier, and
    every article with that identifier seen before it scores strictly less,
    so among several of greatest score the earliest is the one kept. *)
Theorem exact_pass_keeps_best (l : list Article) (aid : string) :
  aid ∈ a_id <$> l →
  ∃ i a,
    l !! i = Some a ∧ a_id a = aid ∧
    filter (fun x => a_id x = aid) (exact_pass l) = [a] ∧
    ∀ j b, l !! j = Some b → a_id b = aid →
           (a_relevance_score b ≤ a_relevance_score a)%Z ∧
           (j < i → (a_relevance_score b < a_relevance_score a)%Z).
Proof.
  intros Hin. destruct (exact_pass_best l aid Hin) as (a & Hbest & Hfil).
  destruct Hbest as (Hid & i & Hi & Hmax). by exists i, a.
Qed.

Lemma exact_pass_keeps_best_witness :
  ∃ i a,
    same_link_feed !! i = Some a ∧ a_id a = "aaa" ∧
    filter (fun x => a_id x = "aaa") (exact_pass same_link_feed) = [a] ∧
    ∀ j b, same_link_feed !! j = Some b → a_id b = "aaa" →
           (a_relevance_score b ≤ a_relevance_score a)%Z ∧
           (j < i → (a_relevance_score b < a_relevance_score a)%Z).
Proof.
  apply (exact_pass_keeps_best same_link_feed "aaa").
  simpl. apply list_elem_of_here.
Defined.

(** ** Second pass of the deduplicator *)

Section FuzzyPassFacts.

Context {U : Unicode}.

Lemma similar_exceeds (w1 w2 : gset string) :
  similar w1 w2 = true ↔ jaccard_exceeds w1 w2.
Proof.
  unfold similar, jaccard_exceeds.
  assert (Hle : size (w1 ∩ w2) ≤ size (w1 ∪ w2)).
  { apply subseteq_size. intros x. rewrite elem_of_intersection, elem_of_union. tauto. }
  case_decide.
  - split; [done|lia].
  - apply bool_decide_eq_true.
Qed.

Lemma find_dup_Some words twl i k :
  find_dup words twl i = Some k →
  ∃ ew, i ≤ k ∧ twl !! (k - i) = Some ew ∧ 3 ≤ size ew ∧ similar words ew = true.
Proof.
  revert i. induction twl as [|ew twl IH]; intros i; simpl; [done|].
  assert (Hrec : find_dup words twl (S i) = Some k →
    ∃ ew0, i ≤ k ∧ (ew :: twl) !! (k - i) = Some ew0 ∧ 3 ≤ size ew0
           ∧ similar words ew0 = true).
  { intros Hk. destruct (IH _ Hk) as (ew0 & Hle & Hlook & Hsz & Hsim).
    exists ew0. split; [lia|]. split; [|done].
    replace (k - i) with (S (k - S i)) by lia. done. }
  case_decide as Hshort; [done|].
  destruct (similar words ew) eqn:Hsim; [|done].
  intros [= <-]. exists ew. rewrite Nat.sub_diag. split_and!; [lia|done|lia|done].
Qed.

Lemma find_dup_None words twl i :
  find_dup words twl i = None ↔
  ∀ ew, ew ∈ twl → size ew < 3 ∨ similar words ew = false.
Proof.
  revert i. induction twl as [|ew twl IH]; intros i; simpl.
  - split; [|done]. intros _ ew Hin. by apply not_elem_of_nil in Hin.
  - case_decide as Hshort.
    + rewrite IH. split.
      * intros Hall ew0 Hin. apply elem_of_cons in Hin as [->|Hin]; auto.
      * intros Hall ew0 Hin. apply Hall. by right.
    + destruct (similar words ew) eqn:Hsim.
      * split; [done|]. intros Hall.
        destruct (Hall ew) as [?|?]; [by left|lia|congruence].
      * rewrite IH. split.
        -- intros Hall ew0 Hin. apply elem_of_cons in Hin as [->|Hin]; auto.
        -- intros Hall ew0 Hin. apply Hall. by right.
Qed.

Lemma fuzzy_step_fresh st x :
  dup_slot st x = None →
  fuzzy_step st x = Some (st.1 ++ [x], st.2 ++ [title_words x]).
Proof.
  destruct st as [final twl]. unfold dup_slot, fuzzy_step. cbn [fst snd].
  case_decide; [done|]. by intros ->.
Qed.

Lemma fuzzy_step_dup st x i e :
  dup_slot st x = Some i → st.1 !! i = Some e →
  fuzzy_step st x =
  Some (if decide (a_relevance_score x > a_relevance_score e)%Z
        then (<[i := x]> st.1, <[i := title_words x]> st.2) else st).
Proof.
  destruct st as [final twl]. unfold dup_slot, fuzzy_step. cbn [fst snd].
  case_decide; [done|]. intros -> ->. by case_decide.
Qed.

Lemma fuzzy_step_short st x :
  short_title x →
  dup_slot st x = None ∧
  fuzzy_step st x = Some (st.1 ++ [x], st.2 ++ [title_words x]).
Proof.
  intros Hshort. assert (Hnone : dup_slot st x = None).
  { unfold dup_slot. by rewrite decide_True. }
  split; [done|]. by apply fuzzy_step_fresh.
Qed.

(** [dup_slot] is the index at which the inner loop of [fuzzy_step] leaves
    with [is_dup] set. *)
Lemma fuzzy_step_dup_slot st x :
  fuzzy_step st x =
  match dup_slot st x with
  | Some i =>
      existing ← st.1 !! i;
      Some (if decide (a_relevance_score x > a_relevance_score existing)%Z
            then (<[i := x]> st.1, <[i := title_words x]> st.2) else st)
  | None => Some (st.1 ++ [x], st.2 ++ [title_words x])
  end.
Proof.
  destruct st as [final twl]. unfold dup_slot, fuzzy_step. cbn [fst snd].
  case_decide; [done|]. destruct (find_dup _ _ _) as [i|]; [|done].
  destruct (final !! i) as [e|]; [|done]. cbn. by case_decide.
Qed.

Lemma fuzzy_step_keeps_slot st x i a st' :
  st.1 !! i = Some a → dup_slot st x ≠ Some i →
  fuzzy_step st x = Some st' → st'.1 !! i = Some a.
Proof.
  intros Ha Hne. rewrite fuzzy_step_dup_slot.
  destruct (dup_slot st x) as [j|].
  - destruct (st.1 !! j) as [e|]; [|done]. cbn. intros [= <-].
    case_decide; [|done]. cbn [fst].
    rewrite list_lookup_insert_ne; [done|]. intros ->. done.
  - intros [= <-]. cbn [fst]. by apply lookup_app_l_Some.
Qed.

(** An article is only ever declared a duplicate of a slot whose title has
    three tokens or more and is similar to its own beyond the threshold. *)
Lemma dup_slot_spec st x i e :
  st.2 = title_words <$> st.1 →
  dup_slot st x = Some i → st.1 !! i = Some e →
  3 ≤ size (title_words x) ∧ 3 ≤ size (title_words e) ∧
  jaccard_exceeds (title_words x) (title_words e).
Proof.
  intros Htw Hdup He. unfold dup_slot in Hdup. case_decide as Hx; [done|].
  apply find_dup_Some in Hdup as (ew & _ & Hew & Hsz & Hsim).
  rewrite Nat.sub_0_r, Htw, list_lookup_fmap, He in Hew. injection Hew as <-.
  split_and!; [lia|done|by apply similar_exceeds].
Qed.

Lemma dup_slot_bound st x i :
  dup_slot st x = Some i → i < length st.2.
Proof.
  unfold dup_slot. case_decide; [done|]. intros Hdup.
  apply find_dup_Some in Hdup as (ew & _ & Hew & _).
  rewrite Nat.sub_0_r in Hew. by eapply lookup_lt_Some.
Qed.

Lemma submseteq_NoDup {A} (l k : list A) : l ⊆+ k → NoDup k → NoDup l.
Proof.
  intros Hsub Hk. apply submseteq_Permutation in Hsub as [k' Hperm].
  rewrite Hperm in Hk. by apply NoDup_app in Hk as (? & _ & _).
Qed.

Lemma insert_submseteq_snoc {A} (l k : list A) i x :
  i < length l → l ⊆+ k → <[i := x]> l ⊆+ k ++ [x].
Proof.
  intros Hi Hsub. rewrite insert_take_drop by done.
  rewrite <-Permutation_middle, <-Permutation_cons_append.
  apply submseteq_skip. rewrite <-delete_take_drop.
  etrans; [apply submseteq_delete|done].
Qed.

Lemma fuzzy_step_inv processed st x :
  fuzzy_inv processed st →
  ∃ st', fuzzy_step st x = Some st' ∧ fuzzy_inv (processed ++ [x]) st'.
Proof.
  intros [Htw Hsub].
  assert (Happ : fuzzy_inv (processed ++ [x]) (st.1 ++ [x], st.2 ++ [title_words x])).
  { split; cbn [fst snd].
    - by rewrite Htw, fmap_app.
    - by apply submseteq_skips_r. }
  destruct (dup_slot st x) as [i|] eqn:Hdup.
  - pose proof (dup_slot_bound _ _ _ Hdup) as Hi.
    rewrite Htw, length_fmap in Hi.
    destruct (lookup_lt_is_Some_2 _ _ Hi) as [e He].
    rewrite (fuzzy_step_dup _ _ _ _ Hdup He). eexists; split; [done|].
    case_decide.
    + split; cbn [fst snd].
      * by rewrite Htw, list_fmap_insert.
      * by apply insert_submseteq_snoc.
    + split; [done|]. by apply submseteq_inserts_r.
  - rewrite (fuzzy_step_fresh _ _ Hdup). eauto.
Qed.

Lemma fuzzy_loop_inv rest : ∀ processed st,
  fuzzy_inv processed st →
  ∃ st', fuzzy_loop st rest = Some st' ∧ fuzzy_inv (processed ++ rest) st'.
Proof.
  induction rest as [|x rest IH]; intros processed st Hinv; simpl.
  - exists st. by rewrite app_nil_r.
  - destruct (fuzzy_step_inv processed st x Hinv) as (st1 & -> & Hinv1).
    destruct (IH _ _ Hinv1) as (st' & Hloop & Hinv').
    exists st'. split; [done|]. by rewrite <-app_assoc in Hinv'.
Qed.

Lemma fuzzy_inv_nil : fuzzy_inv [] ([], []).
Proof. split; done. Qed.

Lemma fuzzy_loop_snoc st l x :
  fuzzy_loop st (l ++ [x]) = fuzzy_loop st l ≫= fun st' => fuzzy_step st' x.
Proof.
  revert st. induction l as [|y l IH]; intros st; simpl.
  - by destruct (fuzzy_step st x).
  - destruct (fuzzy_step st y); [apply IH|done].
Qed.

Lemma fuzzy_pass_total unique :
  ∃ final, fuzzy_pass unique = Some final ∧ final ⊆+ unique.
Proof.
  destruct (fuzzy_loop_inv unique [] _ fuzzy_inv_nil) as (st' & Hloop & _ & Hsub).
  exists st'.1. unfold fuzzy_pass. rewrite Hloop. done.
Qed.

Lemma deduplicate_total l :
  ∃ r, deduplicate l = Some r ∧ r ⊆+ exact_pass l.
Proof. apply fuzzy_pass_total. Qed.

(** C10: [deduplicate] returns a list; each of its elements is an element of
    the input, as it was put in; it is no longer than the input; and no two
    of its elements have the same identifier. *)
Theorem deduplicate_selects (l : list Article) :
  ∃ r, deduplicate l = Some r ∧
       (∀ a, a ∈ r → a ∈ l) ∧
       length r ≤ length l ∧
       NoDup (a_id <$> r).
Proof.
  destruct (deduplicate_total l) as (r & Hr & Hsub).
  assert (Hsub' : r ⊆+ l) by (etrans; [done|apply exact_pass_submseteq]).
  exists r. split_and!; [done| | |].
  - intros a Ha. by eapply elem_of_submseteq.
  - by apply submseteq_length.
  - eapply submseteq_NoDup; [|apply exact_pass_NoDup]. by apply fmap_submseteq.
Qed.

Lemma fuzzy_loop_reach before st :
  fuzzy_loop ([], []) before = Some st → fuzzy_inv before st.
Proof.
  intros Hloop.
  destruct (fuzzy_loop_inv before [] _ fuzzy_inv_nil) as (st' & Hloop' & Hinv).
  rewrite Hloop in Hloop'. by injection Hloop' as <-.
Qed.

Lemma filter_insert_neutral {A} (P : A → Prop) `{!∀ x, Decision (P x)}
    (l : list A) i x e :
  l !! i = Some e → ¬ P e → ¬ P x → filter P (<[i := x]> l) = filter P l.
Proof.
  intros He Hne Hnx. rewrite insert_take_drop by (by eapply lookup_lt_Some).
  rewrite <-(take_drop_middle l i e) at 3 by done.
  by rewrite !filter_app, !filter_cons_False.
Qed.

Lemma fuzzy_step_short_filter st x st' :
  st.2 = title_words <$> st.1 →
  fuzzy_step st x = Some st' →
  filter short_title st'.1 = filter short_title (st.1 ++ [x]).
Proof.
  intros Htw Hstep. destruct (dup_slot st x) as [i|] eqn:Hdup.
  - pose proof (dup_slot_bound _ _ _ Hdup) as Hi.
    rewrite Htw, length_fmap in Hi.
    destruct (lookup_lt_is_Some_2 _ _ Hi) as [e He].
    destruct (dup_slot_spec _ _ _ _ Htw Hdup He) as (Hx & Hlong & _).
    rewrite (fuzzy_step_dup _ _ _ _ Hdup He) in Hstep. injection Hstep as <-.
    rewrite filter_app, filter_cons_False, app_nil_r
      by (unfold short_title; lia).
    case_decide; [|done]. cbn [fst].
    apply (filter_insert_neutral _ _ _ _ e); [done|..]; unfold short_title; lia.
  - rewrite (fuzzy_step_fresh _ _ Hdup) in Hstep. by injection Hstep as <-.
Qed.

Lemma fuzzy_loop_short_filter rest : ∀ processed st st',
  fuzzy_inv processed st →
  filter short_title st.1 = filter short_title processed →
  fuzzy_loop st rest = Some st' →
  filter short_title st'.1 = filter short_title (processed ++ rest).
Proof.
  induction rest as [|x rest IH]; intros processed st st' Hinv Hfil Hloop.
  - simpl in Hloop. injection Hloop as <-. by rewrite app_nil_r.
  - simpl in Hloop.
    destruct (fuzzy_step_inv processed st x Hinv) as (st1 & Hstep & Hinv1).
    rewrite Hstep in Hloop.
    rewrite (app_assoc processed [x] rest : processed ++ x :: rest = _).
    apply (IH _ st1); [done| |done].
    rewrite (fuzzy_step_short_filter st x st1 (proj1 Hinv) Hstep).
    by rewrite !filter_app, Hfil.
Qed.

(** C9: the fuzzy pass returns a list in which the articles with fewer than
    three distinct title tokens are exactly those of its input, in the same
    order, so each of them is in the output; when such an article comes up
    it is declared a duplicate of no slot and is appended; and whenever any
    article is declared a duplicate of a slot, the article held by that slot
    has three tokens or more, so a short-titled article is never replaced or
    merged with. *)
Theorem short_titles_survive (unique : list Article) :
  ∃ final,
    fuzzy_pass unique = Some final ∧
    filter short_title final = filter short_title unique ∧
    (∀ a, a ∈ unique → short_title a → a ∈ final) ∧
    ∀ before x after st,
      unique = before ++ x :: after →
      fuzzy_loop ([], []) before = Some st →
      (short_title x →
         dup_slot st x = None ∧
         fuzzy_step st x = Some (st.1 ++ [x], st.2 ++ [title_words x])) ∧
      (∀ i e, dup_slot st x = Some i → st.1 !! i = Some e → ¬ short_title e).
Proof.
  destruct (fuzzy_loop_inv unique [] _ fuzzy_inv_nil) as (st' & Hloop & Hinv).
  assert (Hfil : filter short_title st'.1 = filter short_title unique)
    by (apply (fuzzy_loop_short_filter unique [] ([], []) st' fuzzy_inv_nil); done).
  exists st'.1. split_and!.
  - unfold fuzzy_pass. by rewrite Hloop.
  - done.
  - intros a Hin Hshort.
    assert (Ha : a ∈ filter short_title st'.1)
      by (rewrite Hfil; by apply list_elem_of_filter).
    by apply list_elem_of_filter in Ha as [_ ?].
  - intros before x after st _ Hreach. split.
    + apply fuzzy_step_short.
    + intros i e Hdup He Hshort.
      destruct (fuzzy_loop_reach _ _ Hreach) as [Htw _].
      destruct (dup_slot_spec _ _ _ _ Htw Hdup He) as (_ & Hlong & _).
      unfold short_title in Hshort. lia.
Qed.

Lemma jaccard_exceeds_sym (w1 w2 : gset string) :
  jaccard_exceeds w1 w2 ↔ jaccard_exceeds w2 w1.
Proof.
  unfold jaccard_exceeds.
  by rewrite (comm_L (∪) w1 w2), (comm_L (∩) w1 w2).
Qed.

Lemma exact_loop_pair (a b : Article) :
  exact_pass [a; b] =
  if decide (a_id a = a_id b)
  then [if decide (a_relevance_score b > a_relevance_score a)%Z then b else a]
  else [a; b].
Proof.
  unfold exact_pass, exact_loop. cbn [fold_left]. unfold exact_step at 2.
  rewrite lookup_empty. unfold exact_step.
  rewrite lookup_insert. case_decide as Hid.
  - case_decide; [|done]. cbn [snd app].
    by rewrite filter_cons_False, filter_nil by tauto.
  - by rewrite lookup_empty.
Qed.

Lemma fuzzy_pass_single (a : Article) : fuzzy_pass [a] = Some [a].
Proof.
  unfold fuzzy_pass. cbn [fuzzy_loop]. unfold fuzzy_step.
  cbn [find_dup]. by case_decide.
Qed.

Lemma fuzzy_step_first (a : Article) :
  fuzzy_step ([], []) a = Some ([a], [title_words a]).
Proof. unfold fuzzy_step. cbn [find_dup]. by case_decide. Qed.

Lemma fuzzy_pass_pair_apart (a b : Article) :
  ¬ jaccard_exceeds (title_words a) (title_words b) →
  fuzzy_pass [a; b] = Some [a; b].
Proof.
  intros Hfar. unfold fuzzy_pass. cbn [fuzzy_loop]. rewrite fuzzy_step_first.
  rewrite fuzzy_step_fresh; [done|].
  unfold dup_slot. case_decide; [done|]. cbn [snd find_dup].
  case_decide; [done|].
  destruct (similar (title_words b) (title_words a)) eqn:Hsim; [|done].
  apply similar_exceeds, jaccard_exceeds_sym in Hsim. done.
Qed.

Lemma fuzzy_pass_pair_close (a b : Article) :
  3 ≤ size (title_words a) → 3 ≤ size (title_words b) →
  jaccard_exceeds (title_words a) (title_words b) →
  fuzzy_pass [a; b] =
  Some [if decide (a_relevance_score b > a_relevance_score a)%Z then b else a].
Proof.
  intros Ha Hb Hnear. unfold fuzzy_pass. cbn [fuzzy_loop].
  rewrite fuzzy_step_first.
  rewrite (fuzzy_step_dup _ b 0 a); cbn [fst snd].
  - by case_decide.
  - unfold dup_slot. rewrite decide_False by lia. cbn [snd find_dup].
    rewrite decide_False by lia.
    apply jaccard_exceeds_sym, similar_exceeds in Hnear. by rewrite Hnear.
  - done.
Qed.

(** C5: two articles whose title token sets have Jaccard similarity at most
    0.85 are never merged: in whatever state the fuzzy pass has reached,
    neither is declared a duplicate of a slot holding the other, the step
    leaves that slot as it is, and a two-article input of distinct
    identifiers comes back unchanged; and a two-article input whose titles
    both have three tokens or more and similarity above 0.85 is reduced to
    one article, the second if its score is strictly greater and the first
    otherwise. *)
Theorem fuzzy_threshold (a b : Article) :
  (¬ jaccard_exceeds (title_words a) (title_words b) →
     (∀ before st i,
        fuzzy_loop ([], []) before = Some st →
        (st.1 !! i = Some a →
           dup_slot st b ≠ Some i ∧
           ∀ st', fuzzy_step st b = Some st' → st'.1 !! i = Some a) ∧
        (st.1 !! i = Some b →
           dup_slot st a ≠ Some i ∧
           ∀ st', fuzzy_step st a = Some st' → st'.1 !! i = Some b)) ∧
     (a_id a ≠ a_id b → deduplicate [a; b] = Some [a; b])) ∧
  (3 ≤ size (title_words a) → 3 ≤ size (title_words b) →
   jaccard_exceeds (title_words a) (title_words b) →
     deduplicate [a; b] =
     Some [if decide (a_relevance_score b > a_relevance_score a)%Z then b else a]).
Proof.
  split.
  - intros Hfar. split.
    + intros before st i Hreach.
      destruct (fuzzy_loop_reach _ _ Hreach) as [Htw _].
      split; intros Hslot.
      * assert (Hne : dup_slot st b ≠ Some i).
        { intros Hdup.
          destruct (dup_slot_spec _ _ _ _ Htw Hdup Hslot) as (_ & _ & Hnear).
          by apply jaccard_exceeds_sym in Hnear. }
        split; [done|]. intros st'. by apply fuzzy_step_keeps_slot.
      * assert (Hne : dup_slot st a ≠ Some i).
        { intros Hdup.
          by destruct (dup_slot_spec _ _ _ _ Htw Hdup Hslot) as (_ & _ & Hnear). }
        split; [done|]. intros st'. by apply fuzzy_step_keeps_slot.
    + intros Hid. unfold deduplicate. rewrite exact_loop_pair.
      rewrite decide_False by done. by apply fuzzy_pass_pair_apart.
  - intros Ha Hb Hnear. unfold deduplicate. rewrite exact_loop_pair.
    case_decide.
    + apply fuzzy_pass_single.
    + by apply fuzzy_pass_pair_close.
Qed.

End FuzzyPassFacts.

Section FuzzyPassExamples.

(** Examples on ASCII text, lower-cased and tokenized by [ascii_text]. *)
#[local] Existing Instance ascii_text.

Lemma short_titles_survive_witness :
  ∃ final,
    fuzzy_pass short_feed = Some final ∧
    article "s3" "Breaking news" "general" (Some []) "2024-05-01T08:15:00+00:00" 20
      ∈ final.
Proof.
  destruct (short_titles_survive short_feed) as (final & Hpass & _ & Hin & _).
  exists final. split; [done|]. apply Hin.
  - unfold short_feed. do 3 apply list_elem_of_further. apply list_elem_of_here.
  - unfold short_title. vm_compute. lia.
Defined.

Lemma fuzzy_threshold_witness :
  deduplicate [launch_story; unveil_story] = Some [launch_story; unveil_story] ∧
  deduplicate [firefly_story; firefly_story_again] = Some [firefly_story_again].
Proof.
  split.
  - apply (fuzzy_threshold launch_story unveil_story).
    + unfold jaccard_exceeds. vm_compute. lia.
    + discriminate.
  - apply (fuzzy_threshold firefly_story firefly_story_again).
    + vm_compute. lia.
    + vm_compute. lia.
    + unfold jaccard_exceeds. vm_compute. lia.
Defined.

End FuzzyPassExamples.

(** ** Running the deduplicator on its own output *)

Section RerunFacts.

Context {U : Unicode}.

Lemma exact_fold_fresh (l2 : list Article) : ∀ (seen : gmap string Article) l1,
  (∀ aid, aid ∈ a_id <$> l2 → seen !! aid = None) →
  NoDup (a_id <$> l2) →
  (fold_left exact_step l2 (seen, l1)).2 = l1 ++ l2.
Proof.
  induction l2 as [|x l2 IH]; intros seen l1 Hfresh Hnd.
  - by rewrite app_nil_r.
  - rewrite fmap_cons in Hnd. apply NoDup_cons in Hnd as [Hx Hnd].
    cbn [fold_left]. unfold exact_step at 2.
    rewrite Hfresh by (rewrite fmap_cons; apply list_elem_of_here).
    rewrite IH; [by rewrite <-app_assoc| |done].
    intros aid Hin. rewrite lookup_insert_ne by (intros Heq; by rewrite <-Heq in Hin).
    apply Hfresh. rewrite fmap_cons. by apply list_elem_of_further.
Qed.

Lemma exact_pass_fixed (r : list Article) :
  NoDup (a_id <$> r) → exact_pass r = r.
Proof.
  intros Hnd. unfold exact_pass, exact_loop.
  rewrite exact_fold_fresh; [done| |done]. intros; apply lookup_empty.
Qed.

Lemma twin_free_app_cons l1 x l2 e :
  twin_free (l1 ++ x :: l2) = true → e ∈ l1 → fuzzy_twins e x = false.
Proof.
  induction l1 as [|y l1 IH]; intros Hfree Hin.
  - by apply not_elem_of_nil in Hin.
  - cbn [app twin_free] in Hfree. apply andb_true_iff in Hfree as [Hy Hfree].
    apply elem_of_cons in Hin as [->|Hin]; [|by apply IH].
    rewrite forallb_forall in Hy. apply negb_true_iff, Hy.
    apply in_or_app. right. by left.
Qed.

Lemma twin_free_prefix l1 l2 : twin_free (l1 ++ l2) = true → twin_free l1 = true.
Proof.
  induction l1 as [|y l1 IH]; [done|]. cbn [app twin_free].
  rewrite !andb_true_iff, !forallb_forall. intros [Hy Hfree]. split; [|by apply IH].
  intros b Hb. apply Hy, in_or_app. by left.
Qed.

Lemma twin_free_snoc l x :
  twin_free l = true → (∀ e, e ∈ l → fuzzy_twins e x = false) →
  twin_free (l ++ [x]) = true.
Proof.
  induction l as [|y l IH]; intros Hfree Hx; [done|].
  cbn [app twin_free] in *. apply andb_true_iff in Hfree as [Hy Hfree].
  apply andb_true_iff. split.
  - rewrite forallb_app, Hy. cbn. rewrite Hx by apply list_elem_of_here. done.
  - apply IH; [done|]. intros e He. apply Hx. by apply list_elem_of_further.
Qed.

(** No slot matches [x] exactly when [x] is the fuzzy twin of none of the
    articles held. *)
Lemma dup_slot_None l x :
  dup_slot (l, title_words <$> l) x = None ↔ ∀ e, e ∈ l → fuzzy_twins e x = false.
Proof.
  unfold dup_slot, fuzzy_twins. cbn [snd]. case_decide as Hshort.
  - split; [|done]. intros _ e _.
    rewrite (bool_decide_eq_false_2 (3 ≤ size (title_words x))) by lia.
    by rewrite andb_false_r.
  - rewrite find_dup_None. split.
    + intros Hall e He.
      destruct (Hall (title_words e)) as [Hlt| ->].
      * apply list_elem_of_fmap. by exists e.
      * by rewrite (bool_decide_eq_false_2 (3 ≤ size (title_words e))) by lia.
      * by rewrite andb_false_r.
    + intros Hall ew Hew. apply list_elem_of_fmap in Hew as (e & -> & He).
      specialize (Hall e He).
      destruct (decide (size (title_words e) < 3)) as [|Hlong]; [by left|right].
      rewrite !bool_decide_eq_true_2 in Hall by lia. done.
Qed.

Lemma fuzzy_loop_twin_free (l2 : list Article) : ∀ l1,
  twin_free (l1 ++ l2) = true →
  fuzzy_loop (l1, title_words <$> l1) l2 =
  Some (l1 ++ l2, title_words <$> (l1 ++ l2)).
Proof.
  induction l2 as [|x l2 IH]; intros l1 Hfree.
  - by rewrite app_nil_r.
  - cbn [fuzzy_loop]. rewrite fuzzy_step_fresh; cbn [fst snd].
    + rewrite (app_assoc l1 [x] l2 : l1 ++ x :: l2 = _) in Hfree |- *.
      rewrite <-(IH _ Hfree). by rewrite fmap_app.
    + apply dup_slot_None. intros e He. by eapply twin_free_app_cons.
Qed.

Lemma fuzzy_loop_length st rest st' :
  st.2 = title_words <$> st.1 →
  fuzzy_loop st rest = Some st' → length st'.1 ≤ length st.1 + length rest.
Proof.
  intros Htw Hloop.
  destruct (fuzzy_loop_inv rest st.1 st) as (st2 & Hloop2 & _ & Hsub); [by split|].
  rewrite Hloop in Hloop2. injection Hloop2 as <-.
  apply submseteq_length in Hsub. by rewrite length_app in Hsub.
Qed.

Lemma fuzzy_loop_fixed_twin_free (l2 : list Article) : ∀ l1 st',
  twin_free l1 = true →
  fuzzy_loop (l1, title_words <$> l1) l2 = Some st' →
  st'.1 = l1 ++ l2 →
  twin_free (l1 ++ l2) = true.
Proof.
  induction l2 as [|x l2 IH]; intros l1 st' Hfree Hloop Hfix.
  - by rewrite app_nil_r.
  - cbn [fuzzy_loop] in Hloop.
    destruct (dup_slot (l1, title_words <$> l1) x) as [i|] eqn:Hdup.
    + exfalso.
      pose proof (dup_slot_bound _ _ _ Hdup) as Hi. cbn [snd] in Hi.
      rewrite length_fmap in Hi.
      destruct (lookup_lt_is_Some_2 _ _ Hi) as [e He].
      rewrite (fuzzy_step_dup _ _ i e Hdup He) in Hloop.
      apply fuzzy_loop_length in Hloop.
      * rewrite Hfix, length_app in Hloop. cbn [length] in Hloop.
        case_decide; cbn [fst] in Hloop; rewrite ?length_insert in Hloop; lia.
      * case_decide; cbn [fst snd]; [|done]. by rewrite list_fmap_insert.
    + rewrite (fuzzy_step_fresh _ _ Hdup) in Hloop. cbn [fst snd] in Hloop.
      rewrite (app_assoc l1 [x] l2 : l1 ++ x :: l2 = _) in Hfix |- *.
      apply (IH _ st'); [|by rewrite fmap_app|done].
      apply twin_free_snoc; [done|]. by apply dup_slot_None.
Qed.

Lemma fuzzy_pass_fixed (r : list Article) :
  fuzzy_pass r = Some r ↔ twin_free r = true.
Proof.
  unfold fuzzy_pass. split.
  - intros Hpass.
    destruct (fuzzy_loop ([], []) r) as [st'|] eqn:Hloop; [|done].
    injection Hpass as Hfix.
    by apply (fuzzy_loop_fixed_twin_free r [] st').
  - intros Hfree. pose proof (fuzzy_loop_twin_free r [] Hfree) as Hloop.
    change (title_words <$> []) with (@nil (gset string)) in Hloop.
    by rewrite Hloop.
Qed.

Lemma deduplicate_ids l r : deduplicate l = Some r → NoDup (a_id <$> r).
Proof.
  intros Hr. destruct (deduplicate_total l) as (r' & Hr' & Hsub).
  rewrite Hr in Hr'. injection Hr' as <-.
  eapply submseteq_NoDup; [|apply exact_pass_NoDup]. by apply fmap_submseteq.
Qed.

(** C3: running [deduplicate] on its own result [r] gives [r] back exactly
    when [r] holds no two articles that are fuzzy twins, that is, both with
    three title tokens or more and Jaccard similarity above 0.85. *)
Theorem dedup_twice (l r : list Article) :
  deduplicate l = Some r →
  (deduplicate r = Some r ↔ twin_free r = true).
Proof.
  intros Hr. unfold deduplicate at 1.
  rewrite exact_pass_fixed by (by eapply deduplicate_ids).
  apply fuzzy_pass_fixed.
Qed.

End RerunFacts.

Section RerunExamples.

(** Examples on ASCII text, lower-cased and tokenized by [ascii_text]. *)
#[local] Existing Instance ascii_text.

Lemma dedup_twice_witness :
  deduplicate same_link_feed =
    Some [ article "bbb" "Retail media spend grows again" "retail" (Some [])
                   "2024-05-01T09:00:00+00:00" 33;
           article "aaa" "Adobe ships Firefly update" "martech" (Some ["adobe"])
                   "2024-05-01T08:00:00+00:00" 40 ] ∧
  deduplicate
    [ article "bbb" "Retail media spend grows again" "retail" (Some [])
              "2024-05-01T09:00:00+00:00" 33;
      article "aaa" "Adobe ships Firefly update" "martech" (Some ["adobe"])
              "2024-05-01T08:00:00+00:00" 40 ] =
    Some [ article "bbb" "Retail media spend grows again" "retail" (Some [])
                   "2024-05-01T09:00:00+00:00" 33;
           article "aaa" "Adobe ships Firefly update" "martech" (Some ["adobe"])
                   "2024-05-01T08:00:00+00:00" 40 ].
Proof.
  assert (Hfirst : deduplicate same_link_feed =
    Some [ article "bbb" "Retail media spend grows again" "retail" (Some [])
                   "2024-05-01T09:00:00+00:00" 33;
           article "aaa" "Adobe ships Firefly update" "martech" (Some ["adobe"])
                   "2024-05-01T08:00:00+00:00" 40 ]).
  { vm_compute. reflexivity. }
  split; [exact Hfirst|].
  apply (dedup_twice _ _ Hfirst). vm_compute. reflexivity.
Defined.

(** C3, as first stated, fails: on three headlines of which the third is
    similar to both others and scores highest, the first run leaves the third
    (put in the slot of the first) next to the second, and a second run then
    drops the second as a duplicate of the third. *)
Lemma dedup_not_idempotent :
  deduplicate chain_feed = Some [chain_third; chain_second] ∧
  deduplicate [chain_third; chain_second] = Some [chain_third] ∧
  (deduplicate chain_feed ≫= deduplicate) ≠ deduplicate chain_feed.
Proof.
  assert (H1 : deduplicate chain_feed = Some [chain_third; chain_second])
    by (vm_compute; reflexivity).
  assert (H2 : deduplicate [chain_third; chain_second] = Some [chain_third])
    by (vm_compute; reflexivity).
  split_and!; [done..|]. rewrite H1. cbn [mbind option_bind]. rewrite H2.
  discriminate.
Qed.

End RerunExamples.

(** ** Output partitioner *)

Section PartitionFacts.

Context {U : Unicode}.

Lemma ascii_compare_refl c : Ascii.compare c c = Eq.
Proof. unfold Ascii.compare. apply N.compare_refl. Qed.

Lemma ascii_compare_lt_trans c1 c2 c3 :
  Ascii.compare c1 c2 = Lt → Ascii.compare c2 c3 = Lt → Ascii.compare c1 c3 = Lt.
Proof.
  unfold Ascii.compare. rewrite !N.compare_lt_iff. apply N.lt_trans.
Qed.

Lemma string_compare_lt_trans (s1 : string) : ∀ s2 s3,
  String.compare s1 s2 = Lt → String.compare s2 s3 = Lt →
  String.compare s1 s3 = Lt.
Proof.
  induction s1 as [|c1 s1 IH]; intros [|c2 s2] [|c3 s3]; simpl; try done.
  destruct (Ascii.compare c1 c2) eqn:E12; try done;
    destruct (Ascii.compare c2 c3) eqn:E23; try done; intros H12 H23.
  - apply Ascii.compare_eq_iff in E12, E23. subst.
    rewrite ascii_compare_refl. by eapply IH.
  - apply Ascii.compare_eq_iff in E12. subst. by rewrite E23.
  - apply Ascii.compare_eq_iff in E23. subst. by rewrite E12.
  - by rewrite (ascii_compare_lt_trans _ _ _ E12 E23).
Qed.

Lemma string_compare_refl (s : string) : String.compare s s = Eq.
Proof.
  induction s as [|c s IH]; simpl; [done|]. by rewrite ascii_compare_refl.
Qed.

Lemma string_leb_trans (s1 s2 s3 : string) :
  String.leb s1 s2 = true → String.leb s2 s3 = true → String.leb s1 s3 = true.
Proof.
  unfold String.leb.
  destruct (String.compare s1 s2) eqn:E12; try done;
    destruct (String.compare s2 s3) eqn:E23; try done; intros _ _.
  - apply String.compare_eq_iff in E12, E23. subst.
    by rewrite string_compare_refl.
  - apply String.compare_eq_iff in E12. subst. by rewrite E23.
  - apply String.compare_eq_iff in E23. subst. by rewrite E12.
  - by rewrite (string_compare_lt_trans _ _ _ E12 E23).
Qed.

Lemma string_ltb_false_leb (s1 s2 : string) :
  String.ltb s1 s2 = false → String.leb s2 s1 = true.
Proof.
  unfold String.ltb, String.leb. rewrite (String.compare_antisym s1 s2).
  by destruct (String.compare s2 s1).
Qed.

Lemma string_ltb_leb (s1 s2 : string) :
  String.ltb s1 s2 = true → String.leb s1 s2 = true.
Proof. unfold String.ltb, String.leb. by destruct (String.compare s1 s2). Qed.

Lemma feed_order_trans a b c : feed_order a b → feed_order b c → feed_order a c.
Proof.
  unfold feed_order. intros [Hab|[Hab Pab]] [Hbc|[Hbc Pbc]].
  - left. lia.
  - left. lia.
  - left. lia.
  - right. split; [lia|]. by eapply string_leb_trans.
Qed.

(** An element the sort leaves in front of another is before it in the feed
    order, whichever way the key comparison went. *)
Lemma key_lt_true_order a b :
  key_lt (sort_key b) (sort_key a) = true → feed_order b a.
Proof.
  unfold key_lt, sort_key, feed_order. cbn [fst snd]. case_decide as Heq.
  - intros Hlt. right. split; [lia|]. by apply string_ltb_leb.
  - intros Hlt. apply Z.ltb_lt in Hlt. left. lia.
Qed.

Lemma key_lt_false_order a b :
  key_lt (sort_key b) (sort_key a) = false → feed_order a b.
Proof.
  unfold key_lt, sort_key, feed_order. cbn [fst snd]. case_decide as Heq.
  - intros Hlt. right. split; [lia|]. by apply string_ltb_false_leb.
  - intros Hlt. apply Z.ltb_ge in Hlt. left. lia.
Qed.

Lemma insert_sorted_perm a l : insert_sorted a l ≡ₚ a :: l.
Proof.
  induction l as [|b l IH]; simpl; [done|].
  destruct (key_lt (sort_key b) (sort_key a)); [|done].
  rewrite IH. apply Permutation_swap.
Qed.

Lemma sorted_perm l : sorted l ≡ₚ l.
Proof.
  induction l as [|a l IH]; simpl; [done|].
  rewrite insert_sorted_perm. by rewrite IH.
Qed.

Lemma insert_sorted_sorted a l :
  StronglySorted feed_order l → StronglySorted feed_order (insert_sorted a l).
Proof.
  induction l as [|b l IH]; simpl; intros Hs.
  - by repeat constructor.
  - apply StronglySorted_inv in Hs as [Hl Hb].
    destruct (key_lt (sort_key b) (sort_key a)) eqn:Hlt.
    + constructor; [by apply IH|].
      rewrite insert_sorted_perm. constructor; [|done].
      by apply key_lt_true_order.
    + pose proof (key_lt_false_order _ _ Hlt) as Hab.
      constructor; [by constructor|]. constructor; [done|].
      eapply Forall_impl; [exact Hb|]. intros c Hbc. by eapply feed_order_trans.
Qed.

Lemma sorted_sorted l : StronglySorted feed_order (sorted l).
Proof.
  induction l as [|a l IH]; simpl; [constructor|]. by apply insert_sorted_sorted.
Qed.

Lemma sorted_take_ranked (l : list Article) n :
  take n (sorted l) ++ drop n (sorted l) ≡ₚ l ∧
  StronglySorted feed_order (take n (sorted l) ++ drop n (sorted l)) ∧
  length (take n (sorted l)) = min (length l) n.
Proof.
  rewrite take_drop. split_and!.
  - apply sorted_perm.
  - apply sorted_sorted.
  - rewrite length_take, (Permutation_length (sorted_perm l)). lia.
Qed.

Lemma pop_vendors_length (l : list Article) : length (pop_vendors <$> l) = length l.
Proof. apply length_fmap. Qed.

(** C8: the primary feed written by the pipeline is the head, of length at
    most 100, of an arrangement of all deduplicated articles in which every
    article comes before every article of lower score and, among articles of
    equal score, before those whose [published] field is greater. *)
Theorem main_feed_ranked (raw : list Article) (config : Config) :
  ∃ deduped outs rest,
    deduplicate raw = Some deduped ∧
    main raw config = Some outs ∧
    main_feed outs = take 100 (sorted (pop_vendors <$> deduped)) ∧
    main_feed outs ++ rest ≡ₚ pop_vendors <$> deduped ∧
    StronglySorted feed_order (main_feed outs ++ rest) ∧
    length (main_feed outs) = min (length deduped) 100.
Proof.
  destruct (deduplicate_total raw) as (deduped & Hdedup & _).
  exists deduped, (build_output_files (pop_vendors <$> deduped) config),
    (drop 100 (sorted (pop_vendors <$> deduped))).
  destruct (sorted_take_ranked (pop_vendors <$> deduped) 100) as (Hperm & Hsort & Hlen).
  rewrite pop_vendors_length in Hlen.
  split_and!; try done.
  unfold main. by rewrite Hdedup.
Qed.

(** ** Vendor feeds *)

Lemma vendor_subset_popped v (l : list Article) :
  vendor_subset v (pop_vendors <$> l) =
  filter (fun a => a_source_category a = v) (pop_vendors <$> l).
Proof.
  unfold vendor_subset. induction l as [|a l IH]; [done|].
  rewrite fmap_cons, !filter_cons, IH. cbn [pop_vendors a_source_category a_vendors get].
  destruct (decide (a_source_category a = v)) as [Hc|Hc].
  - by rewrite decide_True by (by left).
  - rewrite decide_False; [done|]. intros [?|Hin]; [done|].
    by apply not_elem_of_nil in Hin.
Qed.

(** Once [main] has popped the ["vendors"] key, the vendor feeds are decided
    by [source_category] alone. *)
Lemma vendor_feeds_by_category (raw : list Article) (config : Config) :
  ∃ deduped outs,
    deduplicate raw = Some deduped ∧
    main raw config = Some outs ∧
    vendor_adobe outs =
      take 100 (sorted (filter (fun a => a_source_category a = "adobe")
                               (pop_vendors <$> deduped))) ∧
    vendor_salesforce outs =
      take 100 (sorted (filter (fun a => a_source_category a = "salesforce")
                               (pop_vendors <$> deduped))).
Proof.
  destruct (deduplicate_total raw) as (deduped & Hdedup & _).
  exists deduped, (build_output_files (pop_vendors <$> deduped) config).
  split_and!; [done| | |].
  - unfold main. by rewrite Hdedup.
  - cbn [build_output_files vendor_adobe]. by rewrite vendor_subset_popped.
  - cbn [build_output_files vendor_salesforce]. by rewrite vendor_subset_popped.
Qed.

End PartitionFacts.

Section VendorExample.

(** Examples on ASCII text, lower-cased and tokenized by [ascii_text]. *)
#[local] Existing Instance ascii_text.

(** C1, on the code as it stands: an article that the vendor classifier
    labels ["adobe"] but that comes from a feed of another category is in the
    deduplicated collection and in the primary feed, yet absent from the
    Adobe feed, although the partitioner's own test, applied to the article
    while it still carries its label, selects it. *)
Theorem vendor_label_dropped :
  let a := photoshop_annotated in
  annotate sample_parse (30 * HOUR) ai_config photoshop_story = Some a ∧
  a_source_category a = "martech" ∧
  a_vendors a = Some ["adobe"] ∧
  deduplicate [a] = Some [a] ∧
  vendor_subset "adobe" [a] = [a] ∧
  (main_feed <$> main [a] ai_config) = Some [pop_vendors a] ∧
  (vendor_adobe <$> main [a] ai_config) = Some [].
Proof. vm_compute. by split_and!. Qed.

End VendorExample.

(** * Further properties of the code *)

(** ** Strings *)

Lemma append_cons c (s1 s2 : string) : String c s1 +:+ s2 = String c (s1 +:+ s2).
Proof. reflexivity. Qed.

Lemma append_nil_l (s : string) : "" +:+ s = s.
Proof. reflexivity. Qed.

Lemma append_assoc (s1 s2 s3 : string) : (s1 +:+ s2) +:+ s3 = s1 +:+ (s2 +:+ s3).
Proof.
  induction s1 as [|c s1 IH]; [done|]. by rewrite !append_cons, IH.
Qed.

Lemma append_nil_r (s : string) : s +:+ "" = s.
Proof. induction s as [|c s IH]; [done|]. by rewrite append_cons, IH. Qed.

Lemma append_length (s1 s2 : string) :
  String.length (s1 +:+ s2) = String.length s1 + String.length s2.
Proof.
  induction s1 as [|c s1 IH]; [done|]. rewrite append_cons. cbn [String.length].
  by rewrite IH.
Qed.

Lemma prefix_spec (kw s : string) :
  String.prefix kw s = true ↔ ∃ after, s = kw +:+ after.
Proof.
  revert s. induction kw as [|c kw IH]; intros [|c' s]; cbn [String.prefix].
  - split; [|done]. intros _. by exists "".
  - split; [|done]. intros _. by exists (String c' s).
  - split; [done|]. intros [after Hs]. by rewrite append_cons in Hs.
  - destruct (ascii_dec c c') as [->|Hne].
    + rewrite IH. split; intros [after Hs]; exists after.
      * by rewrite append_cons, Hs.
      * rewrite append_cons in Hs. congruence.
    + split; [done|]. intros [after Hs]. rewrite append_cons in Hs. congruence.
Qed.

(** Substring containment, as the operator [in] has it: [kw] occurs
    somewhere in [s]. *)
Lemma str_in_spec (kw s : string) :
  str_in kw s = true ↔ ∃ before after, s = before +:+ kw +:+ after.
Proof.
  induction s as [|c s IH]; cbn [str_in].
  - rewrite orb_false_r, prefix_spec. split.
    + intros [after Hs]. by exists "", after.
    + intros (before & after & Hs). destruct before as [|c' before].
      * by exists after.
      * by rewrite append_cons in Hs.
  - rewrite orb_true_iff, prefix_spec, IH. split.
    + intros [[after Hs]|(before & after & Hs)].
      * by exists "", after.
      * exists (String c before), after. by rewrite append_cons, Hs.
    + intros (before & after & Hs). destruct before as [|c' before].
      * left. by exists after.
      * right. exists before, after. rewrite append_cons in Hs. congruence.
Qed.

(** ** Scorer: configurations and letter case *)

Section ScorerConfigFacts.

Context {U : Unicode}.

Lemma tier_total_lower t article config :
  tier_total t article config =
  foldr Z.add 0%Z
    ((fun k => if str_in k (lower (a_title article)) then title_weight t
               else if str_in k (lower (a_summary article)) then summary_weight t
               else 0%Z) <$> (lower <$> tier_keywords t config)).
Proof.
  unfold tier_total. rewrite <-list_fmap_compose. done.
Qed.

Lemma tier_total_nonneg_sum t article (kws : list string) :
  (0 ≤ foldr Z.add 0 (keyword_gain t article <$> kws))%Z.
Proof.
  induction kws as [|kw kws IH]; [done|]. rewrite fmap_cons. cbn [foldr].
  assert (0 ≤ keyword_gain t article kw)%Z; [|lia].
  unfold keyword_gain. pose proof (summary_below_title t).
  repeat case_match; lia.
Qed.

Lemma foldr_add_app (l1 l2 : list Z) :
  foldr Z.add 0%Z (l1 ++ l2) = (foldr Z.add 0 l1 + foldr Z.add 0 l2)%Z.
Proof. induction l1 as [|x l1 IH]; [done|]. cbn [app foldr]. rewrite IH. lia. Qed.

(** X1: with no relevance keyword configured (key missing, tiers missing or
    empty) the scorer returns 15 for an article the parser reads as
    published less than 6 hours ago, 10 for any other article it reads and
    for one it rejects with a [ValueError] or [TypeError] (the floor absorbs
    the smaller bonuses), and raises when the parser raises anything else. *)
Theorem score_without_keywords parse_date now article config :
  (∀ t, tier_keywords t config = []) →
  compute_relevance_score parse_date now article config =
  match parse_date now (a_published article) with
  | Parsed d =>
      Some (if decide (now - (dt_wall d - get (dt_utcoffset d) 0) < 6 * 3600000000)%Z
            then 15%Z else 10%Z)
  | Unparseable => Some 10%Z
  | Escapes => None
  end.
Proof.
  intros Hempty. rewrite compute_relevance_score_split.
  unfold tier_total. rewrite !Hempty. cbn.
  destruct (parse_date now (a_published article)) as [d| |]; cbn; [|done..].
  unfold elapsed_since, instant_of, HOUR. f_equal. repeat case_decide; lia.
Qed.

(** X2: the score ignores letter case, of the article and of the keywords:
    two articles with the same published text whose titles and summaries
    agree once lower-cased, scored at the same clock reading under
    configurations whose tiers agree keyword by keyword once lower-cased,
    get the same result. *)
Theorem score_ignores_case parse_date now a a' config config' :
  lower (a_title a) = lower (a_title a') →
  lower (a_summary a) = lower (a_summary a') →
  a_published a = a_published a' →
  (∀ t, lower <$> tier_keywords t config = lower <$> tier_keywords t config') →
  compute_relevance_score parse_date now a config =
  compute_relevance_score parse_date now a' config'.
Proof.
  intros Ht Hs Hp Hk. rewrite !compute_relevance_score_split.
  rewrite !tier_total_lower, Ht, Hs, Hp, !Hk. done.
Qed.

(** X3: configuring more keywords never lowers a score: if every tier of
    [config'] starts with the keywords of the same tier of [config], the
    scorer raises under both configurations or under neither, and no article
    scores less under [config'] than under [config]. *)
Theorem score_monotone_in_keywords parse_date now article config config' :
  (∀ t, ∃ more, tier_keywords t config' = tier_keywords t config ++ more) →
  match compute_relevance_score parse_date now article config,
        compute_relevance_score parse_date now article config' with
  | Some score, Some score' => (score ≤ score')%Z
  | None, None => True
  | _, _ => False
  end.
Proof.
  intros Hmore. rewrite !compute_relevance_score_split.
  assert (Hle : ∀ t, (tier_total t article config ≤ tier_total t article config')%Z).
  { intros t. destruct (Hmore t) as [more Ht]. unfold tier_total.
    rewrite Ht, fmap_app, foldr_add_app.
    pose proof (tier_total_nonneg_sum t article more). lia. }
  pose proof (Hle High). pose proof (Hle Medium). pose proof (Hle Low).
  destruct (recency_bonus _ now) as [bonus|]; cbn -[tier_total]; [lia|done].
Qed.

End ScorerConfigFacts.

Section ScorerConfigExamples.

(** Examples on ASCII text, lower-cased and tokenized by [ascii_text]. *)
#[local] Existing Instance ascii_text.

Lemma score_without_keywords_witness :
  compute_relevance_score sample_parse (5 * HOUR) ai_in_title
    (keyword_config None None None) = Some 15%Z ∧
  compute_relevance_score sample_parse (7 * HOUR) ai_in_title
    (keyword_config (Some (mkRelevance (Some []) None None)) None None) = Some 10%Z ∧
  compute_relevance_score sample_parse (7 * HOUR) overflowing_date
    (keyword_config None None None) = None.
Proof.
  split_and!.
  - rewrite (score_without_keywords sample_parse (5 * HOUR) ai_in_title
               (keyword_config None None None)); [done|]. by intros [].
  - rewrite (score_without_keywords sample_parse (7 * HOUR) ai_in_title
               (keyword_config (Some (mkRelevance (Some []) None None)) None None));
      [done|]. by intros [].
  - rewrite (score_without_keywords sample_parse (7 * HOUR) overflowing_date
               (keyword_config None None None)); [done|]. by intros [].
Defined.

Lemma score_ignores_case_witness :
  compute_relevance_score sample_parse (5 * HOUR) ai_in_title ai_config =
  compute_relevance_score sample_parse (5 * HOUR) ai_in_title_upper ai_config_recased.
Proof.
  apply score_ignores_case; try reflexivity. by intros [].
Defined.

Lemma score_monotone_in_keywords_witness :
  match compute_relevance_score sample_parse (5 * HOUR) ai_in_title
          (keyword_config (Some (mkRelevance (Some ["AI"]) None None)) None None),
        compute_relevance_score sample_parse (5 * HOUR) ai_in_title ai_config with
  | Some score, Some score' => (score ≤ score')%Z
  | None, None => True
  | _, _ => False
  end.
Proof.
  apply score_monotone_in_keywords.
  intros []; [by exists []|by exists []|by exists ["suite"]].
Defined.

End ScorerConfigExamples.

(** ** Classifier *)

Section ClassifierFacts.

Context {U : Unicode}.

Lemma classify_fold text (m : list (string * list string)) : ∀ acc,
  fold_left
    (fun matched '(label, keywords) =>
       if existsb (fun kw => str_in (lower kw) text) keywords
       then matched ++ [label] else matched) m acc =
  acc ++ (filter (fun kv => existsb (fun kw => str_in (lower kw) text) kv.2 = true) m).*1.
Proof.
  induction m as [|[label keywords] m IH]; intros acc.
  - by rewrite app_nil_r.
  - cbn [fold_left]. rewrite IH, filter_cons. cbn [snd].
    destruct (existsb _ keywords) eqn:Hex.
    + rewrite decide_True by done. by rewrite fmap_cons, <-app_assoc.
    + by rewrite decide_False by done.
Qed.

Lemma classify_filter text (m : list (string * list string)) :
  classify text m =
  (filter (fun kv => existsb (fun kw => str_in (lower kw) text) kv.2 = true) m).*1.
Proof. unfold classify. by rewrite classify_fold. Qed.

Lemma existsb_label_matches text (kv : string * list string) :
  existsb (fun kw => str_in (lower kw) text) kv.2 = true ↔ label_matches text kv.
Proof.
  unfold label_matches. rewrite existsb_exists. split.
  - intros (kw & Hin & Hkw). exists kw. split; [by apply list_elem_of_In|].
    by apply str_in_spec.
  - intros (kw & Hin & Hkw). exists kw. split; [by apply list_elem_of_In|].
    by apply str_in_spec.
Qed.

Lemma classify_sublist text (m : list (string * list string)) :
  classify text m `sublist_of` m.*1.
Proof. rewrite classify_filter. apply fmap_sublist, sublist_filter. Qed.

Lemma classify_elem text (m : list (string * list string)) label :
  label ∈ classify text m ↔
  ∃ keywords, (label, keywords) ∈ m ∧ label_matches text (label, keywords).
Proof.
  rewrite classify_filter, list_elem_of_fmap. split.
  - intros ([l kws] & -> & Hin). apply list_elem_of_filter in Hin as [Hex Hin].
    exists kws. split; [done|]. by apply existsb_label_matches.
  - intros (kws & Hin & Hm). exists (label, kws). split; [done|].
    apply list_elem_of_filter. split; [|done]. by apply existsb_label_matches.
Qed.

(** X4: both classifiers return the configured labels that match, in the
    order of the configuration and each entry at most once; a label is
    returned exactly when one of its keywords, lower-cased, occurs somewhere
    in the lower-cased text "title summary" (plain containment, also inside
    a longer word). *)
Theorem classifier_labels (article : Article) (config : Config) :
  let text := lower (a_title article +:+ " " +:+ a_summary article) in
  let industries := get (industry_keywords config) [] in
  let vendors := get (vendor_keywords config) [] in
  classify_industries article config `sublist_of` industries.*1 ∧
  classify_vendors article config `sublist_of` vendors.*1 ∧
  (∀ label, label ∈ classify_industries article config ↔
     ∃ keywords, (label, keywords) ∈ industries ∧
       ∃ kw, kw ∈ keywords ∧ ∃ before after, text = before +:+ lower kw +:+ after) ∧
  (∀ label, label ∈ classify_vendors article config ↔
     ∃ keywords, (label, keywords) ∈ vendors ∧
       ∃ kw, kw ∈ keywords ∧ ∃ before after, text = before +:+ lower kw +:+ after).
Proof.
  intros text industries vendors. split_and!.
  - apply classify_sublist.
  - apply classify_sublist.
  - intros label. apply classify_elem.
  - intros label. apply classify_elem.
Qed.

(** X5: a classifier whose keyword map is missing from the configuration,
    or in whose map every label has an empty keyword list, returns the empty
    list, whatever the other classifier's map holds. *)
Theorem classifier_without_keywords (article : Article) (config : Config) :
  ((∀ label keywords,
      (label, keywords) ∈ get (industry_keywords config) [] → keywords = []) →
   classify_industries article config = []) ∧
  ((∀ label keywords,
      (label, keywords) ∈ get (vendor_keywords config) [] → keywords = []) →
   classify_vendors article config = []).
Proof.
  split.
  - intros Hind. apply elem_of_nil_inv. intros label Hin.
    apply classify_elem in Hin as (kws & Hkv & kw & Hkw & _).
    rewrite (Hind _ _ Hkv) in Hkw. by apply not_elem_of_nil in Hkw.
  - intros Hven. apply elem_of_nil_inv. intros label Hin.
    apply classify_elem in Hin as (kws & Hkv & kw & Hkw & _).
    rewrite (Hven _ _ Hkv) in Hkw. by apply not_elem_of_nil in Hkw.
Qed.

Lemma existsb_lower text (kws : list string) :
  existsb (fun kw => str_in (lower kw) text) kws =
  existsb (fun k => str_in k text) (lower <$> kws).
Proof. induction kws as [|kw kws IH]; [done|]. rewrite fmap_cons. simpl. by rewrite IH. Qed.

Lemma classify_same_keywords text m m' :
  same_keywords m m' → classify text m = classify text m'.
Proof.
  rewrite !classify_filter. induction 1 as [|[l kws] [l' kws'] m m' [Hl Hk] _ IH];
    [done|]. cbn [fst snd] in Hl, Hk. subst l'.
  rewrite !filter_cons. cbn [snd]. rewrite !existsb_lower, Hk.
  case_decide; [rewrite !fmap_cons|]; by rewrite IH.
Qed.

(** X6: classification ignores letter case, of the article and of the
    keywords: articles whose text (title, a space, summary) agrees once
    lower-cased, classified under keyword maps that agree once lower-cased,
    get the same industries and the same vendors. *)
Theorem classifier_ignores_case (a a' : Article) (config config' : Config) :
  lower (a_title a +:+ " " +:+ a_summary a)
    = lower (a_title a' +:+ " " +:+ a_summary a') →
  same_keywords (get (industry_keywords config) []) (get (industry_keywords config') []) →
  same_keywords (get (vendor_keywords config) []) (get (vendor_keywords config') []) →
  classify_industries a config = classify_industries a' config' ∧
  classify_vendors a config = classify_vendors a' config'.
Proof.
  intros Ht Hind Hven. unfold classify_industries, classify_vendors. rewrite Ht.
  split; by apply classify_same_keywords.
Qed.

End ClassifierFacts.

Section ClassifierExamples.

(** Examples on ASCII text, lower-cased and tokenized by [ascii_text]. *)
#[local] Existing Instance ascii_text.

Lemma classifier_labels_witness :
  "adobe" ∈ classify_vendors photoshop_story ai_config.
Proof.
  destruct (classifier_labels photoshop_story ai_config) as (_ & _ & _ & Hven).
  apply Hven. exists ["adobe"; "photoshop"]. split; [apply list_elem_of_here|].
  exists "photoshop". split; [apply list_elem_of_further, list_elem_of_here|].
  by exists "", " gains generative fill for marketers ".
Defined.

Lemma classifier_without_keywords_witness :
  classify_industries photoshop_story ai_config = [] ∧
  classify_vendors photoshop_story
    (keyword_config None (Some [("retail", ["fill"])])
                    (Some [("adobe", []); ("salesforce", [])])) = [].
Proof.
  split.
  - apply (classifier_without_keywords photoshop_story ai_config).
    intros label keywords Hin. by apply not_elem_of_nil in Hin.
  - apply (classifier_without_keywords photoshop_story
             (keyword_config None (Some [("retail", ["fill"])])
                             (Some [("adobe", []); ("salesforce", [])]))).
    intros label keywords Hin. cbn in Hin.
    apply elem_of_cons in Hin as [[= _ ->]|Hin]; [done|].
    apply elem_of_cons in Hin as [[= _ ->]|Hin]; [done|].
    by apply not_elem_of_nil in Hin.
Defined.

Lemma classifier_ignores_case_witness :
  classify_industries photoshop_story ai_config =
    classify_industries photoshop_story_upper ai_config_recased ∧
  classify_vendors photoshop_story ai_config =
    classify_vendors photoshop_story_upper ai_config_recased.
Proof.
  apply classifier_ignores_case; try reflexivity.
  - constructor.
  - repeat constructor.
Defined.

End ClassifierExamples.

(** ** Freshness filter *)

(** X7: [is_recent] returns [True] for a published text the parser rejects
    with a [ValueError] or a [TypeError]; for one the parser reads it returns
    whether the instant read (the wall-clock reading less its UTC offset, a
    reading without offset being taken as UTC) lies strictly less than seven
    days before the clock reading, so an article exactly seven days old is
    not recent; and an exception of another type leaves the function. *)
Theorem is_recent_window parse_date now published :
  (parse_date now published = Unparseable →
     is_recent parse_date now published = Some true) ∧
  (∀ wall tz, parse_date now published = Parsed (mkDatetime wall tz) →
     is_recent parse_date now published =
     Some (bool_decide
             (now - (wall - match tz with Some offset => offset | None => 0 end)
              < 7 * (24 * 3600000000))%Z)) ∧
  (parse_date now published = Escapes → is_recent parse_date now published = None).
Proof.
  unfold is_recent, MAX_ARTICLE_AGE_DAYS, DAY, HOUR, instant_of. split_and!.
  - by intros ->.
  - intros wall tz ->. cbn. f_equal. apply bool_decide_ext.
    destruct tz; cbn; lia.
  - by intros ->.
Qed.

Lemma is_recent_window_witness :
  is_recent sample_parse (3 * DAY) "not a date" = Some true ∧
  is_recent sample_parse (3 * DAY) "1970-01-01T00:00:00+00:00" = Some true ∧
  is_recent sample_parse (7 * DAY) "1970-01-01T00:00:00+00:00" = Some false ∧
  is_recent sample_parse (3 * DAY) "99999999999999999999" = None.
Proof.
  destruct (is_recent_window sample_parse (3 * DAY) "not a date") as (Hbad & _ & _).
  destruct (is_recent_window sample_parse (3 * DAY) "1970-01-01T00:00:00+00:00")
    as (_ & Hthree & _).
  destruct (is_recent_window sample_parse (7 * DAY) "1970-01-01T00:00:00+00:00")
    as (_ & Hseven & _).
  destruct (is_recent_window sample_parse (3 * DAY) "99999999999999999999")
    as (_ & _ & Hesc).
  split_and!.
  - by apply Hbad.
  - by rewrite (Hthree 0%Z (Some 0%Z)).
  - by rewrite (Hseven 0%Z (Some 0%Z)).
  - by apply Hesc.
Defined.

(** X8: an article that earns a recency bonus from the scorer passes the
    freshness filter at the same clock reading. *)
Theorem bonus_implies_recent parse_date now published base boosted :
  recency_boost parse_date now published base = Some boosted →
  (base < boosted)%Z →
  is_recent parse_date now published = Some true.
Proof.
  rewrite recency_boost_bonus. unfold recency_bonus, is_recent, elapsed_since.
  destruct (parse_date now published) as [d| |]; cbn; [|intros [= <-]; lia|done].
  unfold MAX_ARTICLE_AGE_DAYS, DAY, HOUR. intros [= <-] Hb. f_equal.
  rewrite bool_decide_eq_true. repeat case_decide; lia.
Qed.

Lemma bonus_implies_recent_witness :
  is_recent sample_parse (23 * HOUR) "1970-01-01T00:00:00+00:00" = Some true.
Proof.
  apply (bonus_implies_recent sample_parse (23 * HOUR) _ 0 5).
  - vm_compute. reflexivity.
  - lia.
Defined.

(** ** More on the deduplicator *)

Section DedupFacts.

Context {U : Unicode}.

(** Induction over the second loop: a property of the processed articles and
    the loop state that holds at the start and is kept by every step holds
    when the loop ends. *)
Lemma fuzzy_loop_from (I : list Article → list Article * list (gset string) → Prop) :
  (∀ processed st x st',
     fuzzy_inv processed st → I processed st →
     fuzzy_step st x = Some st' → I (processed ++ [x]) st') →
  ∀ rest processed st st',
    fuzzy_inv processed st → I processed st →
    fuzzy_loop st rest = Some st' → I (processed ++ rest) st'.
Proof.
  intros Hstep. induction rest as [|x rest IH]; intros processed st st' Hinv HI Hloop.
  - simpl in Hloop. injection Hloop as <-. by rewrite app_nil_r.
  - simpl in Hloop.
    destruct (fuzzy_step_inv processed st x Hinv) as (st1 & Hst1 & Hinv1).
    rewrite Hst1 in Hloop.
    rewrite (app_assoc processed [x] rest : processed ++ x :: rest = _).
    apply (IH _ st1); [done| |done]. by eapply Hstep.
Qed.

Lemma fuzzy_loop_invariant (I : list Article → list Article * list (gset string) → Prop) :
  I [] ([], []) →
  (∀ processed st x st',
     fuzzy_inv processed st → I processed st →
     fuzzy_step st x = Some st' → I (processed ++ [x]) st') →
  ∀ l st, fuzzy_loop ([], []) l = Some st → I l st.
Proof.
  intros Hinit Hstep l st Hloop.
  by apply (fuzzy_loop_from I Hstep l [] ([], []) st fuzzy_inv_nil).
Qed.

Lemma fuzzy_pass_state unique final :
  fuzzy_pass unique = Some final →
  ∃ st, fuzzy_loop ([], []) unique = Some st ∧ st.1 = final.
Proof.
  unfold fuzzy_pass. destruct (fuzzy_loop ([], []) unique) as [st|]; [|done].
  intros [= <-]. by exists st.
Qed.

Lemma exact_pass_nonempty l : l ≠ [] → exact_pass l ≠ [].
Proof.
  destruct l as [|x l]; [done|]. intros _ Hnil.
  destruct (exact_pass_best (x :: l) (a_id x)) as (a & _ & Hfil).
  { rewrite fmap_cons. apply list_elem_of_here. }
  by rewrite Hnil in Hfil.
Qed.

Lemma fuzzy_pass_nonempty unique final :
  fuzzy_pass unique = Some final → unique ≠ [] → final ≠ [].
Proof.
  intros Hpass. apply fuzzy_pass_state in Hpass as (st & Hloop & <-).
  revert unique st Hloop.
  apply (fuzzy_loop_invariant (fun processed st => processed ≠ [] → st.1 ≠ [])).
  - done.
  - intros processed st x st' [Htw _] _ Hstep _. rewrite fuzzy_step_dup_slot in Hstep.
    destruct (dup_slot st x) as [i|] eqn:Hdup.
    + destruct (st.1 !! i) as [e|] eqn:He; [|done]. cbn in Hstep.
      injection Hstep as <-. apply lookup_lt_Some in He.
      case_decide; cbn [fst]; intros Hnil; apply (f_equal length) in Hnil;
        rewrite ?length_insert in Hnil; simpl in Hnil; lia.
    + injection Hstep as <-. cbn [fst]. by destruct st.1.
Qed.

(** X9: deduplication never empties a feed: the result is empty exactly
    when the input is. *)
Theorem deduplicate_empty_iff (l : list Article) :
  deduplicate l = Some [] ↔ l = [].
Proof.
  split.
  - intros Hd. destruct l as [|x l]; [done|]. exfalso.
    apply (fuzzy_pass_nonempty _ _ Hd); [|done]. by apply exact_pass_nonempty.
  - by intros ->.
Qed.

Lemma elem_of_insert_or {A} (l : list A) i x e y :
  l !! i = Some e → y ∈ l → y ∈ <[i := x]> l ∨ y = e.
Proof.
  intros He Hy. apply list_elem_of_lookup_1 in Hy as [j Hj].
  destruct (decide (i = j)) as [->|Hne].
  - right. congruence.
  - left. apply list_elem_of_lookup_2 with j. by rewrite list_lookup_insert_ne.
Qed.

Lemma exact_pass_dominates l x :
  x ∈ l →
  ∃ y, y ∈ exact_pass l ∧ a_id y = a_id x ∧
       (a_relevance_score x ≤ a_relevance_score y)%Z.
Proof.
  intros Hx. destruct (exact_pass_best l (a_id x)) as (y & Hbest & Hfil).
  { apply list_elem_of_fmap. by exists x. }
  exists y. split_and!.
  - assert (Hy : y ∈ filter (fun z => a_id z = a_id x) (exact_pass l))
      by (rewrite Hfil; apply list_elem_of_here).
    by apply list_elem_of_filter in Hy as [_ ?].
  - by destruct Hbest.
  - by eapply best_of_max.
Qed.

Lemma fuzzy_pass_dominates unique final x :
  fuzzy_pass unique = Some final → x ∈ unique →
  ∃ y, y ∈ final ∧ (a_relevance_score x ≤ a_relevance_score y)%Z.
Proof.
  intros Hpass. apply fuzzy_pass_state in Hpass as (st & Hloop & <-).
  revert x. revert unique st Hloop.
  apply (fuzzy_loop_invariant (fun processed st =>
    ∀ x, x ∈ processed → ∃ y, y ∈ st.1 ∧ (a_relevance_score x ≤ a_relevance_score y)%Z)).
  - intros x Hx. by apply not_elem_of_nil in Hx.
  - intros processed st x st' _ IH Hstep z Hz. rewrite fuzzy_step_dup_slot in Hstep.
    apply elem_of_app in Hz as [Hz|Hz].
    + destruct (IH z Hz) as (y & Hy & Hle).
      destruct (dup_slot st x) as [i|].
      * destruct (st.1 !! i) as [e|] eqn:He; [|done]. cbn in Hstep.
        injection Hstep as <-. case_decide as Hgt; cbn [fst]; [|by exists y].
        destruct (elem_of_insert_or _ i x e y He Hy) as [Hin| ->].
        -- by exists y.
        -- exists x. split; [|lia].
           apply list_elem_of_lookup_2 with i. apply list_lookup_insert_eq.
           by eapply lookup_lt_Some.
      * injection Hstep as <-. exists y. split; [|done]. cbn [fst].
        apply elem_of_app. by left.
    + apply list_elem_of_singleton in Hz as ->.
      destruct (dup_slot st x) as [i|].
      * destruct (st.1 !! i) as [e|] eqn:He; [|done]. cbn in Hstep.
        injection Hstep as <-. case_decide as Hgt; cbn [fst].
        -- exists x. split; [|lia].
           apply list_elem_of_lookup_2 with i. apply list_lookup_insert_eq.
           by eapply lookup_lt_Some.
        -- exists e. split; [by eapply list_elem_of_lookup_2|lia].
      * injection Hstep as <-. exists x. split; [|lia]. cbn [fst].
        apply elem_of_app. right. apply list_elem_of_here.
Qed.

(** X10: deduplication never loses the best score: for every article of the
    input the result holds an article that scores at least as much. *)
Theorem deduplicate_keeps_top_score (l : list Article) :
  ∃ r, deduplicate l = Some r ∧
       ∀ x, x ∈ l → ∃ y, y ∈ r ∧ (a_relevance_score x ≤ a_relevance_score y)%Z.
Proof.
  destruct (deduplicate_total l) as (r & Hr & _). exists r. split; [done|].
  intros x Hx. destruct (exact_pass_dominates l x Hx) as (y & Hy & _ & Hxy).
  destruct (fuzzy_pass_dominates _ _ y Hr Hy) as (z & Hz & Hyz).
  exists z. split; [done|lia].
Qed.

(** X11: the lists that deduplication returns unchanged are exactly those
    with pairwise distinct identifiers and no fuzzy twins. *)
Theorem deduplicate_fixed_iff (l : list Article) :
  deduplicate l = Some l ↔ NoDup (a_id <$> l) ∧ twin_free l = true.
Proof.
  split.
  - intros Hd. pose proof (deduplicate_ids _ _ Hd) as Hnd. split; [done|].
    unfold deduplicate in Hd. rewrite exact_pass_fixed in Hd by done.
    by apply fuzzy_pass_fixed.
  - intros [Hnd Hfree]. unfold deduplicate. rewrite exact_pass_fixed by done.
    by apply fuzzy_pass_fixed.
Qed.

Lemma twin_free_short (l : list Article) :
  Forall short_title l → twin_free l = true.
Proof.
  induction 1 as [|a l Ha _ IH]; [done|]. cbn [twin_free].
  rewrite IH, andb_true_r. apply forallb_forall. intros b _.
  unfold fuzzy_twins, short_title in *.
  rewrite (bool_decide_eq_false_2 (3 ≤ size (title_words a))) by lia. done.
Qed.

(** X12: on a feed where every title has fewer than three distinct tokens
    the fuzzy pass changes nothing: deduplication returns the survivors of
    the exact-identity pass, in their order. *)
Theorem deduplicate_short_titles (l : list Article) :
  Forall short_title l → deduplicate l = Some (exact_pass l).
Proof.
  intros Hshort. unfold deduplicate. apply fuzzy_pass_fixed, twin_free_short.
  rewrite Forall_forall in Hshort |- *. intros a Ha. apply Hshort.
  by eapply elem_of_submseteq; [|apply exact_pass_submseteq].
Qed.

(** X13: the exact-identity pass leaves one article for each distinct
    identifier of its input and no other, and on an input whose identifiers
    are pairwise distinct it returns the input as it is. *)
Theorem exact_pass_ids (l : list Article) :
  a_id <$> exact_pass l ≡ₚ remove_dups (a_id <$> l) ∧
  (NoDup (a_id <$> l) → exact_pass l = l).
Proof.
  split; [|apply exact_pass_fixed].
  apply NoDup_Permutation; [apply exact_pass_NoDup|apply NoDup_remove_dups|].
  intros aid. rewrite elem_of_remove_dups. split.
  - intros Hin. by eapply ids_submseteq; [apply exact_pass_submseteq|].
  - intros Hin. destruct (exact_pass_best l aid Hin) as (a & [Hid _] & Hfil).
    apply list_elem_of_fmap. exists a. split; [done|].
    assert (Ha : a ∈ filter (fun z => a_id z = aid) (exact_pass l))
      by (rewrite Hfil; apply list_elem_of_here).
    by apply list_elem_of_filter in Ha as [_ ?].
Qed.

End DedupFacts.

Section DedupExamples.

(** Examples on ASCII text, lower-cased and tokenized by [ascii_text]. *)
#[local] Existing Instance ascii_text.

Lemma deduplicate_short_titles_witness :
  deduplicate brief_feed = Some (exact_pass brief_feed).
Proof.
  apply deduplicate_short_titles. unfold brief_feed.
  repeat (constructor; [unfold short_title; vm_compute; lia|]). constructor.
Defined.

Lemma exact_pass_ids_witness :
  exact_pass [launch_story; unveil_story] = [launch_story; unveil_story].
Proof.
  apply (exact_pass_ids [launch_story; unveil_story]).
  cbn. apply NoDup_cons. split; [|apply NoDup_singleton].
  intros Hin. by apply list_elem_of_singleton in Hin.
Defined.

End DedupExamples.

(** ** More on the output partitioner *)

Section FeedFacts.

Context {U : Unicode}.

Lemma strongly_sorted_prefix {A} (R : A → A → Prop) (l1 l2 : list A) :
  StronglySorted R (l1 ++ l2) → StronglySorted R l1.
Proof.
  induction l1 as [|x l1 IH]; [constructor|]. cbn [app]. intros Hs.
  apply StronglySorted_inv in Hs as [Hs Hx]. constructor; [by apply IH|].
  by apply Forall_app in Hx as [? _].
Qed.

Lemma feed_of_subset (P : Article → Prop) `{!∀ a, Decision (P a)}
    (all_articles : list Article) :
  let feed := take MAX_ARTICLES_PER_OUTPUT (sorted (filter P all_articles)) in
  feed ⊆+ all_articles ∧
  length feed ≤ 100 ∧
  StronglySorted feed_order feed ∧
  (∀ a, a ∈ feed → a ∈ all_articles ∧ P a) ∧
  (length (filter P all_articles) ≤ 100 →
   ∀ a, a ∈ all_articles → P a → a ∈ feed).
Proof.
  intros feed. subst feed.
  assert (Hsub : take MAX_ARTICLES_PER_OUTPUT (sorted (filter P all_articles))
                 ⊆+ filter P all_articles).
  { etrans; [apply submseteq_take|]. by rewrite sorted_perm. }
  split_and!.
  - etrans; [done|]. apply filter_submseteq.
  - apply firstn_le_length.
  - apply (strongly_sorted_prefix _ _ (drop MAX_ARTICLES_PER_OUTPUT
      (sorted (filter P all_articles)))). rewrite take_drop. apply sorted_sorted.
  - intros a Ha. apply (elem_of_submseteq _ _ _ Ha) in Hsub.
    apply list_elem_of_filter in Hsub. tauto.
  - intros Hlen a Ha HP. rewrite take_ge.
    + rewrite sorted_perm. by apply list_elem_of_filter.
    + by rewrite (Permutation_length (sorted_perm _)).
Qed.

(** X14: the output has one feed for each configured industry, in the order
    of the configuration; an industry feed holds only articles of the input
    whose [industries] list names that industry, and it holds all of them
    when they number at most 100. *)
Theorem industry_feed_membership (all_articles : list Article) (config : Config) :
  let outs := build_output_files all_articles config in
  (industry_feeds outs).*1 = (get (industry_keywords config) []).*1 ∧
  ∀ industry feed,
    (industry, feed) ∈ industry_feeds outs →
    (∀ a, a ∈ feed → a ∈ all_articles ∧ industry ∈ a_industries a) ∧
    (length (filter (fun a => industry ∈ a_industries a) all_articles) ≤ 100 →
     ∀ a, a ∈ all_articles → industry ∈ a_industries a → a ∈ feed).
Proof.
  intros outs. subst outs. cbn [build_output_files industry_feeds]. split.
  - rewrite <-list_fmap_compose. done.
  - intros industry feed Hin.
    apply list_elem_of_fmap in Hin as ([label kws] & [= -> ->] & _). cbn [fst].
    destruct (feed_of_subset (fun a => label ∈ a_industries a) all_articles)
      as (_ & _ & _ & Hin & Hall). by split.
Qed.

Lemma all_feeds_facts (all_articles : list Article) (config : Config) :
  let outs := build_output_files all_articles config in
  Forall (fun feed => feed ⊆+ all_articles ∧ length feed ≤ 100 ∧
                      StronglySorted feed_order feed)
         (main_feed outs :: vendor_adobe outs :: vendor_salesforce outs ::
          (industry_feeds outs).*2).
Proof.
  intros outs. subst outs. cbn [build_output_files main_feed vendor_adobe
    vendor_salesforce industry_feeds].
  assert (Hall : ∀ l, l ⊆+ all_articles →
    take MAX_ARTICLES_PER_OUTPUT (sorted l) ⊆+ all_articles ∧
    length (take MAX_ARTICLES_PER_OUTPUT (sorted l)) ≤ 100 ∧
    StronglySorted feed_order (take MAX_ARTICLES_PER_OUTPUT (sorted l))).
  { intros l Hl. split_and!.
    - etrans; [apply submseteq_take|]. by rewrite sorted_perm.
    - apply firstn_le_length.
    - apply (strongly_sorted_prefix _ _ (drop MAX_ARTICLES_PER_OUTPUT (sorted l))).
      rewrite take_drop. apply sorted_sorted. }
  repeat apply Forall_cons_2.
  - by apply Hall.
  - apply Hall, filter_submseteq.
  - apply Hall, filter_submseteq.
  - apply Forall_forall. intros feed Hin.
    apply list_elem_of_fmap in Hin as ([label f] & -> & Hin).
    apply list_elem_of_fmap in Hin as ([l kws] & [= -> ->] & _).
    apply Hall, filter_submseteq.
Qed.

(** X15: every feed written (primary, per industry, per vendor) has at most
    100 articles, is in feed order, and is drawn from the input: no article
    is invented and none appears more often than in the input. *)
Theorem feeds_capped_and_drawn (all_articles : list Article) (config : Config) :
  let outs := build_output_files all_articles config in
  Forall (fun feed => feed ⊆+ all_articles ∧ length feed ≤ 100 ∧
                      StronglySorted feed_order feed)
         (main_feed outs :: vendor_adobe outs :: vendor_salesforce outs ::
          (industry_feeds outs).*2).
Proof. apply all_feeds_facts. Qed.

Lemma main_unfold (raw : list Article) (config : Config) :
  ∃ deduped,
    deduplicate raw = Some deduped ∧
    main raw config = Some (build_output_files (pop_vendors <$> deduped) config).
Proof.
  destruct (deduplicate_total raw) as (deduped & Hd & _). exists deduped.
  split; [done|]. unfold main. by rewrite Hd.
Qed.

(** X16: no article in any feed the pipeline writes carries a [vendors]
    field: the transient label is removed from every article before the
    feeds are built. *)
Theorem outputs_without_vendors (raw : list Article) (config : Config) :
  ∃ outs,
    main raw config = Some outs ∧
    Forall (Forall (fun a => a_vendors a = None))
           (main_feed outs :: vendor_adobe outs :: vendor_salesforce outs ::
            (industry_feeds outs).*2).
Proof.
  destruct (main_unfold raw config) as (deduped & _ & Hmain).
  eexists. split; [done|].
  eapply Forall_impl; [apply all_feeds_facts|]. cbn beta.
  intros feed (Hsub & _ & _). apply Forall_forall. intros a Ha.
  apply (elem_of_submseteq _ _ _ Ha) in Hsub.
  by apply list_elem_of_fmap in Hsub as (a0 & -> & _).
Qed.

Lemma vendor_feed_elems v (deduped : list Article) :
  let feed := take MAX_ARTICLES_PER_OUTPUT
                (sorted (vendor_subset v (pop_vendors <$> deduped))) in
  (∀ a, a ∈ feed →
        a_source_category a = v ∧ ∃ a0, a0 ∈ deduped ∧ a = pop_vendors a0) ∧
  (length (filter (fun a => a_source_category a = v) deduped) ≤ 100 →
   ∀ a0, a0 ∈ deduped → a_source_category a0 = v → pop_vendors a0 ∈ feed).
Proof.
  intros feed. subst feed. rewrite vendor_subset_popped.
  destruct (feed_of_subset (fun a => a_source_category a = v) (pop_vendors <$> deduped))
    as (_ & _ & _ & Hin & Hall).
  split.
  - intros a Ha. destruct (Hin a Ha) as [Hpop Hcat]. split; [done|].
    apply list_elem_of_fmap in Hpop as (a0 & -> & Ha0). by exists a0.
  - intros Hlen a0 Ha0 Hcat. apply Hall.
    + assert (Hf : filter (fun a => a_source_category a = v) (pop_vendors <$> deduped)
                   = pop_vendors <$> filter (fun a => a_source_category a = v) deduped).
      { clear. induction deduped as [|a l IH]; [done|].
        rewrite fmap_cons, !filter_cons. cbn [pop_vendors a_source_category].
        case_decide; [rewrite fmap_cons|]; by rewrite IH. }
      by rewrite Hf, length_fmap.
    + apply list_elem_of_fmap. by exists a0.
    + done.
Qed.

(** X17: in the feeds the pipeline writes, a vendor feed holds only
    deduplicated articles whose [source_category] is that vendor, whatever
    the vendor classifier found, and it holds all of them when they number at
    most 100. *)
Theorem vendor_feed_membership (raw : list Article) (config : Config) :
  ∃ deduped outs,
    deduplicate raw = Some deduped ∧
    main raw config = Some outs ∧
    (∀ a, a ∈ vendor_adobe outs →
          a_source_category a = "adobe" ∧ ∃ a0, a0 ∈ deduped ∧ a = pop_vendors a0) ∧
    (∀ a, a ∈ vendor_salesforce outs →
          a_source_category a = "salesforce" ∧
          ∃ a0, a0 ∈ deduped ∧ a = pop_vendors a0) ∧
    (length (filter (fun a => a_source_category a = "adobe") deduped) ≤ 100 →
     ∀ a0, a0 ∈ deduped → a_source_category a0 = "adobe" →
           pop_vendors a0 ∈ vendor_adobe outs) ∧
    (length (filter (fun a => a_source_category a = "salesforce") deduped) ≤ 100 →
     ∀ a0, a0 ∈ deduped → a_source_category a0 = "salesforce" →
           pop_vendors a0 ∈ vendor_salesforce outs).
Proof.
  destruct (main_unfold raw config) as (deduped & Hd & Hmain).
  exists deduped, (build_output_files (pop_vendors <$> deduped) config).
  destruct (vendor_feed_elems "adobe" deduped) as [Ha1 Ha2].
  destruct (vendor_feed_elems "salesforce" deduped) as [Hs1 Hs2].
  by split_and!.
Qed.

Lemma key_lt_irrefl k : key_lt k k = false.
Proof.
  unfold key_lt. rewrite decide_True by done. unfold String.ltb.
  by rewrite string_compare_refl.
Qed.

Lemma insert_sorted_stable k a l :
  filter (fun x => sort_key x = k) (insert_sorted a l) =
  filter (fun x => sort_key x = k) (a :: l).
Proof.
  induction l as [|b l IH]; [done|]. cbn [insert_sorted].
  destruct (key_lt (sort_key b) (sort_key a)) eqn:Hlt; [|done].
  rewrite filter_cons, IH, !filter_cons.
  destruct (decide (sort_key b = k)) as [Hb|Hb]; [|done].
  destruct (decide (sort_key a = k)) as [Ha|Ha]; [|done].
  rewrite Hb, Ha, key_lt_irrefl in Hlt. done.
Qed.

Lemma sorted_stable k l :
  filter (fun x => sort_key x = k) (sorted l) = filter (fun x => sort_key x = k) l.
Proof.
  induction l as [|a l IH]; [done|]. cbn [sorted foldr].
  rewrite insert_sorted_stable, !filter_cons. fold (sorted l). by rewrite IH.
Qed.

(** X18: ties are stable: the articles of the primary feed that have a given
    score and a given [published] text appear in the order they had in the
    input, as a leading part of the input's articles with that score and
    text (all of them when the feed is not truncated). *)
Theorem main_feed_ties_stable (all_articles : list Article) (config : Config)
    (score : Z) (published : string) :
  let tie a := a_relevance_score a = score ∧ a_published a = published in
  let outs := build_output_files all_articles config in
  filter tie (main_feed outs) `prefix_of` filter tie all_articles ∧
  (length all_articles ≤ 100 →
   filter tie (main_feed outs) = filter tie all_articles).
Proof.
  intros tie outs.
  assert (Htie : ∀ l : list Article, filter tie l =
            filter (fun x => sort_key x = ((- score)%Z, published)) l).
  { intros l. apply list_filter_iff. intros a. unfold tie, sort_key. split.
    - by intros [-> ->].
    - intros [= Hs Hp]. split; [lia|done]. }
  subst outs. cbn [build_output_files main_feed]. split.
  - rewrite (Htie all_articles), <-(sorted_stable _ all_articles), <-Htie.
    rewrite <-(take_drop MAX_ARTICLES_PER_OUTPUT (sorted all_articles)) at 2.
    rewrite filter_app. by eexists.
  - intros Hlen. rewrite take_ge by (by rewrite (Permutation_length (sorted_perm _))).
    by rewrite !Htie, sorted_stable.
Qed.

(** X19: when every article handed to the pipeline has been annotated by
    [main], every article of the primary feed has a score between 10 and
    100. *)
Theorem pipeline_scores_in_range parse_date (raw : list Article) (config : Config) :
  Forall (fun a => ∃ now a0, annotate parse_date now config a0 = Some a) raw →
  ∃ outs, main raw config = Some outs ∧
          Forall (fun a => (10 ≤ a_relevance_score a ≤ 100)%Z) (main_feed outs).
Proof.
  intros Hann. destruct (main_unfold raw config) as (deduped & Hd & Hmain).
  eexists. split; [done|].
  destruct (deduplicate_total raw) as (r & Hr & Hsub).
  rewrite Hd in Hr. injection Hr as <-.
  pose proof (all_feeds_facts (pop_vendors <$> deduped) config) as Hfeeds.
  apply Forall_cons_1 in Hfeeds as [(Hmf & _ & _) _].
  apply Forall_forall. intros a Ha.
  apply (elem_of_submseteq _ _ _ Ha) in Hmf.
  apply list_elem_of_fmap in Hmf as (a0 & -> & Ha0).
  apply (elem_of_submseteq _ _ _ Ha0) in Hsub.
  pose proof (elem_of_submseteq _ _ _ Hsub (exact_pass_submseteq raw)) as Hraw.
  rewrite Forall_forall in Hann. destruct (Hann _ Hraw) as (now & a1 & Hannot).
  unfold annotate in Hannot.
  destruct (compute_relevance_score parse_date now a1 config) as [score|] eqn:Hscore;
    [|done].
  cbn in Hannot. injection Hannot as <-. cbn [pop_vendors a_relevance_score].
  by eapply scorer_range.
Qed.

End FeedFacts.

Section FeedExamples.

(** Examples on ASCII text, lower-cased and tokenized by [ascii_text]. *)
#[local] Existing Instance ascii_text.

Lemma industry_feed_membership_witness :
  ∃ a, annotate sample_parse (30 * HOUR) retail_config store_story = Some a ∧
       a ∈ take MAX_ARTICLES_PER_OUTPUT
             (sorted (filter (fun a => "retail" ∈ a_industries a) annotated_feed)).
Proof.
  eexists. split; [vm_compute; reflexivity|].
  destruct (industry_feed_membership annotated_feed retail_config) as [_ Hfeeds].
  apply (Hfeeds "retail").
  - cbn. apply list_elem_of_here.
  - vm_compute. lia.
  - vm_compute. apply list_elem_of_here.
  - cbn. apply list_elem_of_here.
Defined.

Lemma vendor_feed_membership_witness :
  ∃ a outs,
    annotate sample_parse (30 * HOUR) retail_config bank_story = Some a ∧
    main annotated_feed retail_config = Some outs ∧
    pop_vendors a ∈ vendor_salesforce outs.
Proof.
  destruct (vendor_feed_membership annotated_feed retail_config)
    as (deduped & outs & Hd & Hmain & _ & _ & _ & Hsf).
  assert (Hsame : deduplicate annotated_feed = Some annotated_feed)
    by (vm_compute; reflexivity).
  rewrite Hsame in Hd. injection Hd as <-.
  eexists _, outs. split; [vm_compute; reflexivity|]. split; [done|]. apply Hsf.
  - vm_compute. lia.
  - vm_compute. apply list_elem_of_further, list_elem_of_here.
  - reflexivity.
Defined.

Lemma main_feed_ties_stable_witness :
  filter (fun a => a_relevance_score a = 40%Z ∧
                   a_published a = "2024-05-01T08:00:00+00:00")
         (main_feed (build_output_files same_link_feed retail_config)) =
  filter (fun a => a_relevance_score a = 40%Z ∧
                   a_published a = "2024-05-01T08:00:00+00:00")
         same_link_feed.
Proof.
  apply (main_feed_ties_stable same_link_feed retail_config 40
           "2024-05-01T08:00:00+00:00").
  vm_compute. lia.
Defined.

Lemma pipeline_scores_in_range_witness :
  ∃ outs, main annotated_feed retail_config = Some outs ∧
          Forall (fun a => (10 ≤ a_relevance_score a ≤ 100)%Z) (main_feed outs).
Proof.
  apply (pipeline_scores_in_range sample_parse annotated_feed retail_config).
  constructor; [exists (30 * HOUR)%Z, store_story; vm_compute; reflexivity|].
  constructor; [exists (30 * HOUR)%Z, bank_story; vm_compute; reflexivity|].
  constructor.
Defined.

End FeedExamples.

(** ** Feed health *)

Lemma fold_left_concat {A B} (f : A → B → A) (groups : list (list B)) : ∀ init,
  fold_left (fun acc group => fold_left f group acc) groups init =
  fold_left f (concat groups) init.
Proof.
  induction groups as [|g groups IH]; intros init; [done|].
  cbn [fold_left concat]. by rewrite fold_left_app, IH.
Qed.

Lemma feed_health_flat all_articles config :
  feed_health all_articles config =
  fold_left (fun health f => <[f_name f := health_of all_articles (f_name f)]> health)
            (all_feeds config) ∅.
Proof. unfold feed_health, all_feeds. by rewrite fold_left_concat. Qed.

Lemma health_fold_lookup all_articles (fs : list FeedInfo) :
  ∀ (m : gmap string (string * nat)) name,
  fold_left (fun health f => <[f_name f := health_of all_articles (f_name f)]> health)
            fs m !! name =
  if decide (name ∈ f_name <$> fs) then Some (health_of all_articles name)
  else m !! name.
Proof.
  induction fs as [|f fs IH]; intros m name.
  - cbn [fold_left]. by rewrite decide_False by apply not_elem_of_nil.
  - cbn [fold_left]. rewrite IH, fmap_cons.
    destruct (decide (name ∈ f_name <$> fs)) as [Hin|Hnin].
    + by rewrite decide_True by (by right).
    + rewrite lookup_insert. destruct (decide (f_name f = name)) as [<-|Hne].
      * by rewrite decide_True by (by left).
      * rewrite decide_False; [done|]. intros [?|?]%elem_of_cons; congruence.
Qed.

(** X20: [feed_health] has an entry for every configured feed name and for
    no other name; the entry's count is the number of surviving articles
    whose [source] is the feed name with every "GN - " removed, and its
    status is "ok" exactly when there is such an article. *)
Theorem feed_health_entries (all_articles : list Article) (config : Config)
    (name : string) :
  let stripped := replace "GN - " "" name in
  let count := length (filter (fun a => a_source a = stripped) all_articles) in
  (name ∈ f_name <$> all_feeds config →
     ∃ status, feed_health all_articles config !! name = Some (status, count) ∧
       (status = "ok" ↔ ∃ a, a ∈ all_articles ∧ a_source a = stripped) ∧
       (status = "empty" ↔ count = 0)) ∧
  (name ∉ f_name <$> all_feeds config →
     feed_health all_articles config !! name = None) ∧
  count ≤ length all_articles.
Proof.
  intros stripped count. rewrite feed_health_flat, health_fold_lookup. split_and!.
  - intros Hin. rewrite decide_True by done. unfold health_of. fold stripped. fold count.
    eexists. split; [done|].
    assert (Hpos : 0 < count ↔ ∃ a, a ∈ all_articles ∧ a_source a = stripped).
    { unfold count. split.
      - intros Hlt.
        destruct (filter (fun a => a_source a = stripped) all_articles) as [|a l] eqn:Hf;
          [simpl in Hlt; lia|].
        assert (Ha : a ∈ filter (fun a => a_source a = stripped) all_articles)
          by (rewrite Hf; apply list_elem_of_here).
        apply list_elem_of_filter in Ha as [? ?]. by exists a.
      - intros (a & Ha & Hs).
        assert (Hin' : a ∈ filter (fun a => a_source a = stripped) all_articles)
          by (by apply list_elem_of_filter).
        destruct (filter _ all_articles); [by apply not_elem_of_nil in Hin'|simpl; lia]. }
    case_decide as Hc; split.
    + split; [by intros _; apply Hpos|done].
    + split; [done|lia].
    + split; [done|]. intros Hex. apply Hpos in Hex. lia.
    + split; [lia|done].
  - intros Hnin. by rewrite decide_False by done.
  - unfold count. apply length_filter.
Qed.

Lemma feed_health_entries_witness :
  ∃ status,
    feed_health (pop_vendors <$> annotated_feed) retail_config !! "GN - Retail Dive"
      = Some (status, 1) ∧ status = "ok".
Proof.
  destruct (feed_health_entries (pop_vendors <$> annotated_feed) retail_config
              "GN - Retail Dive") as (Hin & _ & _).
  destruct Hin as (status & Hlook & Hok & _).
  { cbn. apply list_elem_of_further, list_elem_of_here. }
  exists status. split; [exact Hlook|]. apply Hok.
  eexists. split; [vm_compute; apply list_elem_of_here|reflexivity].
Defined.

Lemma indicator_sum {A} (g : A → string) (s : string) (fs : list A) :
  NoDup (g <$> fs) →
  sum_list ((fun f => if decide (s = g f) then 1 else 0) <$> fs) =
  if decide (s ∈ g <$> fs) then 1 else 0.
Proof.
  induction fs as [|f fs IH]; intros Hnd.
  - by rewrite decide_False by apply not_elem_of_nil.
  - rewrite fmap_cons in Hnd. apply NoDup_cons in Hnd as [Hf Hnd].
    rewrite !fmap_cons. cbn [sum_list sum_list_with]. rewrite (IH Hnd).
    destruct (decide (s = g f)) as [->|Hne].
    + rewrite decide_False by done. by rewrite decide_True by (by left).
    + destruct (decide (s ∈ g <$> fs)).
      * by rewrite decide_True by (by right).
      * rewrite decide_False; [done|]. intros [?|?]%elem_of_cons; congruence.
Qed.

Lemma feed_count_total (all_articles : list Article) (fs : list FeedInfo) :
  NoDup (feed_source <$> fs) →
  (∀ a, a ∈ all_articles → a_source a ∈ feed_source <$> fs) →
  sum_list (feed_count all_articles <$> fs) = length all_articles.
Proof.
  intros Hnd. induction all_articles as [|a l IH]; intros Hcov.
  - clear. unfold feed_count. cbn. induction fs as [|f fs IHf]; [done|].
    rewrite fmap_cons. by cbn.
  - assert (Hsplit : sum_list (feed_count (a :: l) <$> fs) =
      sum_list ((fun f => if decide (a_source a = feed_source f) then 1 else 0) <$> fs)
      + sum_list (feed_count l <$> fs)).
    { clear. induction fs as [|f fs IHf]; [done|]. rewrite !fmap_cons.
      cbn [sum_list sum_list_with]. rewrite IHf. unfold feed_count at 1.
      rewrite filter_cons. unfold feed_count. case_decide; cbn [length]; unfold id; lia. }
    rewrite Hsplit, (indicator_sum _ _ _ Hnd).
    rewrite decide_True by (apply Hcov, list_elem_of_here).
    rewrite IH; [done|]. intros b Hb. apply Hcov. by right.
Qed.

Lemma health_total_fold all_articles (fs : list FeedInfo) :
  NoDup (f_name <$> fs) →
  health_total
    (fold_left (fun health f => <[f_name f := health_of all_articles (f_name f)]> health)
               fs ∅) =
  sum_list (feed_count all_articles <$> fs).
Proof.
  induction fs as [|f fs IH] using rev_ind; intros Hnd.
  - done.
  - rewrite fmap_app in Hnd. apply NoDup_app in Hnd as (Hnd & Hdisj & _).
    rewrite fold_left_app. cbn [fold_left]. unfold health_total.
    rewrite map_fold_insert_L.
    + fold (health_total (fold_left
        (fun health f => <[f_name f := health_of all_articles (f_name f)]> health) fs ∅)).
      rewrite (IH Hnd), fmap_app, sum_list_with_app. cbn. unfold feed_count, feed_source, id. lia.
    + intros. lia.
    + rewrite health_fold_lookup, lookup_empty. rewrite decide_False; [done|].
      intros Hin. apply (Hdisj _ Hin). cbn. apply list_elem_of_here.
Qed.

(** X21: when the configured feeds have pairwise distinct names, pairwise
    distinct names once "GN - " is removed, and every surviving article's
    [source] is one of these, the article counts of [feed_health] add up to
    the number of surviving articles. *)
Theorem feed_health_counts_add_up (all_articles : list Article) (config : Config) :
  NoDup (f_name <$> all_feeds config) →
  NoDup (feed_source <$> all_feeds config) →
  (∀ a, a ∈ all_articles → a_source a ∈ feed_source <$> all_feeds config) →
  health_total (feed_health all_articles config) = length all_articles.
Proof.
  intros Hnames Hsources Hcov.
  rewrite feed_health_flat, health_total_fold by done.
  by apply feed_count_total.
Qed.

Lemma feed_health_counts_add_up_witness :
  health_total (feed_health (pop_vendors <$> annotated_feed) retail_config) = 2.
Proof.
  rewrite (feed_health_counts_add_up (pop_vendors <$> annotated_feed) retail_config).
  - reflexivity.
  - cbn. apply NoDup_cons. split; [|apply NoDup_singleton].
    intros Hin. by apply list_elem_of_singleton in Hin.
  - vm_compute. apply NoDup_cons. split; [|apply NoDup_singleton].
    intros Hin. by apply list_elem_of_singleton in Hin.
  - intros a Ha. vm_compute in Ha.
    apply elem_of_cons in Ha as [->|Ha].
    + vm_compute. apply list_elem_of_further, list_elem_of_here.
    + apply list_elem_of_singleton in Ha as ->. vm_compute. apply list_elem_of_here.
Defined.

(** ** Text steps of [normalize_entry] *)

Lemma replace_from_skip old new (t s : string) :
  replace_from old new (String.length t) (t +:+ s) = replace_from old new 0 s.
Proof.
  induction t as [|c t IH]; [done|]. rewrite append_cons. cbn [String.length replace_from].
  done.
Qed.

Lemma replace_prefix old new (s : string) :
  old ≠ "" → replace old new (old +:+ s) = new +:+ replace old new s.
Proof.
  intros Hne. destruct old as [|c old]; [done|]. unfold replace.
  rewrite append_cons. cbn [replace_from]. rewrite <-append_cons.
  rewrite (proj2 (prefix_spec (String c old) (String c old +:+ s))) by (by exists s).
  replace (String.length (String c old) - 1) with (String.length old)
    by (cbn [String.length]; lia).
  by rewrite replace_from_skip.
Qed.

Lemma replace_absent old new (s : string) :
  str_in old s = false → replace old new s = s.
Proof.
  unfold replace. induction s as [|c s IH]; [done|].
  cbn [str_in replace_from]. intros [Hp Hs]%orb_false_iff.
  rewrite Hp. by rewrite IH.
Qed.

(** X22: the aggregator prefix is dropped for attribution: a feed named
    "GN - X" has the same [source] label as a feed named "X", and a name in
    which "GN - " does not occur is its own label. *)
Theorem feed_source_prefix (name url category url' category' : string) :
  feed_source (mkFeed ("GN - " +:+ name) url category) =
    feed_source (mkFeed name url' category') ∧
  (str_in "GN - " name = false → feed_source (mkFeed name url category) = name).
Proof.
  unfold feed_source. cbn [f_name]. split.
  - by rewrite replace_prefix.
  - apply replace_absent.
Qed.

Lemma feed_source_prefix_witness :
  feed_source (mkFeed "GN - Retail Dive" "https://example.com/rd" "retail")
  = "Retail Dive".
Proof.
  destruct (feed_source_prefix "Retail Dive" "https://example.com/rd" "retail"
              "https://example.com/rd" "retail") as [Hstrip Hkeep].
  change ("GN - " +:+ "Retail Dive") with "GN - Retail Dive" in Hstrip.
  rewrite Hstrip. apply Hkeep. reflexivity.
Defined.

Lemma cp_length_app (s1 s2 : string) :
  cp_length (s1 +:+ s2) = cp_length s1 + cp_length s2.
Proof.
  induction s1 as [|c s1 IH]; [done|]. rewrite append_cons. cbn [cp_length].
  destruct (is_continuation c); by rewrite IH.
Qed.

Lemma cp_take_length n (s : string) :
  cp_length (cp_take n s) = n `min` cp_length s.
Proof.
  revert n. induction s as [|c s IH]; intros n; cbn [cp_take cp_length].
  - lia.
  - destruct (is_continuation c) eqn:Hc.
    + cbn [cp_length]. by rewrite Hc, IH.
    + destruct n as [|n]; [done|]. cbn [cp_length]. rewrite Hc, IH. lia.
Qed.

(** [cp_take n s] is a leading part of [s] that ends between two code
    points: what follows it does not start with a continuation byte. *)
Lemma cp_take_prefix n (s : string) :
  ∃ rest, s = cp_take n s +:+ rest ∧
          ∀ c rest', rest = String c rest' → is_continuation c = false.
Proof.
  revert n. induction s as [|c s IH]; intros n; cbn [cp_take].
  - exists "". by split.
  - destruct (is_continuation c) eqn:Hc.
    + destruct (IH n) as (rest & Hs & Hrest). exists rest.
      split; [by rewrite append_cons, <-Hs|done].
    + destruct n as [|n].
      * exists (String c s). split; [done|]. by intros ? ? [= <- _].
      * destruct (IH n) as (rest & Hs & Hrest). exists rest.
        split; [by rewrite append_cons, <-Hs|done].
Qed.

(** X23: the title kept by [normalize_entry] never exceeds 300 characters
    (code points): a title of at most 300 characters is kept as it is, a
    longer one is cut to its first 297 characters followed by "...", 300
    characters in all. *)
Theorem cap_title_bound (title : string) :
  cp_length (cap_title title) ≤ 300 ∧
  (cp_length title ≤ 300 → cap_title title = title) ∧
  (300 < cp_length title →
     cp_length (cap_title title) = 300 ∧
     ∃ head rest, title = head +:+ rest ∧ cp_length head = 297 ∧
                  (∀ c rest', rest = String c rest' → is_continuation c = false) ∧
                  cap_title title = head +:+ "...").
Proof.
  unfold cap_title. case_decide as Hlen.
  - assert (Hl : cp_length (cp_take 297 title +:+ "...") = 300).
    { rewrite cp_length_app, cp_take_length. change (cp_length "...") with 3. lia. }
    split_and!; [lia|lia|]. intros _. split; [done|].
    destruct (cp_take_prefix 297 title) as (rest & Hrest & Hbound).
    exists (cp_take 297 title), rest. split_and!; [done| |done|done].
    rewrite cp_take_length. lia.
  - split_and!; [lia|done|lia].
Qed.

Lemma has_space_append (s1 s2 : string) :
  has_space (s1 +:+ s2) = has_space s1 || has_space s2.
Proof.
  induction s1 as [|c s1 IH]; [done|]. rewrite append_cons. cbn [has_space].
  by case_decide.
Qed.

Lemma rsplit_head_spec (s : string) :
  (has_space s = false ∧ rsplit_head s = s) ∨
  (∃ tail, s = rsplit_head s +:+ " " +:+ tail ∧ has_space tail = false).
Proof.
  induction s as [|c s IH]; [by left|]. cbn [rsplit_head has_space].
  destruct (has_space s) eqn:Hsp.
  - right. destruct IH as [[? _]|(tail & Hs & Htail)]; [done|].
    exists tail. split; [|done]. by rewrite append_cons, <-Hs.
  - case_decide as Hc.
    + right. exists s. subst c. by split.
    + by left.
Qed.

(** X24: the summary kept by [normalize_entry] never exceeds 280
    characters (code points): a summary of at most 280 characters is kept as
    it is; a longer one becomes a leading part of at most 277 characters
    followed by "...", and when that part is shorter than 277 characters it
    stops right before a space of the summary, so no word is cut. *)
Theorem cap_summary_bound (summary : string) :
  cp_length (cap_summary summary) ≤ 280 ∧
  (cp_length summary ≤ 280 → cap_summary summary = summary) ∧
  (280 < cp_length summary →
     ∃ head rest, summary = head +:+ rest ∧
                  cap_summary summary = head +:+ "..." ∧
                  cp_length head ≤ 277 ∧
                  (cp_length head < 277 → ∃ rest', rest = " " +:+ rest')).
Proof.
  unfold cap_summary. case_decide as Hlen; [|split_and!; [lia|done|lia]].
  destruct (cp_take_prefix 277 summary) as (rest0 & Hrest0 & _).
  pose proof (cp_take_length 277 summary) as Hl.
  assert (Hcut : ∃ head rest, summary = head +:+ rest ∧
            rsplit_head (cp_take 277 summary) = head ∧
            cp_length head ≤ 277 ∧
            (cp_length head < 277 → ∃ rest', rest = " " +:+ rest')).
  { destruct (rsplit_head_spec (cp_take 277 summary)) as [[_ Hall]|(tail & Hs & _)].
    - exists (cp_take 277 summary), rest0. rewrite Hall.
      split_and!; [done|done|lia|lia].
    - exists (rsplit_head (cp_take 277 summary)), (" " +:+ tail +:+ rest0).
      split_and!.
      + rewrite Hrest0 at 1. rewrite Hs at 1. by rewrite !append_assoc.
      + done.
      + apply (f_equal cp_length) in Hs. rewrite cp_length_app in Hs. lia.
      + intros _. by eexists. }
  destruct Hcut as (head & rest & Hsum & Hhead & Hle & Hword).
  split_and!.
  - rewrite Hhead, cp_length_app. change (cp_length "...") with 3. lia.
  - lia.
  - intros _. exists head, rest. by rewrite Hhead.
Qed.

Lemma cap_title_bound_witness :
  cp_length (cap_title (filler 60)) = 300 ∧
  cap_title accented_title = accented_title.
Proof.
  split.
  - apply (cap_title_bound (filler 60)). vm_compute. lia.
  - apply (cap_title_bound accented_title). vm_compute. lia.
Defined.

Lemma cap_summary_bound_witness :
  (∃ head rest, filler 60 = head +:+ rest ∧
                cap_summary (filler 60) = head +:+ "..." ∧
                cp_length head ≤ 277 ∧
                (cp_length head < 277 → ∃ rest', rest = " " +:+ rest')) ∧
  cap_summary curly_summary = curly_summary.
Proof.
  split.
  - apply (cap_summary_bound (filler 60)). vm_compute. lia.
  - apply (cap_summary_bound curly_summary). vm_compute. lia.
Defined.
